(** * SmolenskMap: the Overpass geometry hook and the selection state

    A shallow embedding of [src/components/SmolenskMap.tsx]: the parsing loop
    of [useOverpassData], the life cycle of its cancellable fetch effect, the
    selection state of the [SmolenskMap] component with what it renders from
    it, and the resize timer of [InvalidateOnToggle]. *)

From Stdlib Require Import PrimFloat ZArith.
From stdpp Require Import gmap strings list pretty.

Local Open Scope string_scope.
Local Open Scope list_scope.
Set Warnings "-inexact-float".

(** ** Numbers

    A JavaScript [number] is an IEEE 754 binary64 value, and so is a primitive
    float.  [x === y] on numbers is [PrimFloat.eqb]: a NaN differs from
    itself and the two zeros are equal.  [x !== y] is its negation. *)

Abbreviation number := PrimFloat.float.

Definition strict_eq (x y : number) : bool := PrimFloat.eqb x y.
Definition strict_ne (x y : number) : bool := negb (strict_eq x y).

(** ** Types for the Overpass response (subset) *)

Inductive ElementType := way | node | relation.

Record LatLon := { lat : number; lon : number }.

Record OverpassElement := {
  type : ElementType;
  id : number;
  tags : option (gmap string string);
  geometry : option (list LatLon)
}.

Record OverpassResponse := { elements : list OverpassElement }.

(** A coordinate pair [[lat, lon]], a polyline or polygon, and a layer. *)
Abbreviation Pair := (number * number)%type.
Abbreviation Line := (list Pair).
Abbreviation Layer := (list Line).

(** ** Truthiness

    [el.tags["highway"]] is a string or [undefined]; it is truthy when the
    key is present and its value is not the empty string. *)

Definition truthy (v : option string) : bool :=
  match v with
  | Some s => negb (String.eqb s "")
  | None => false
  end.

Definition is_way (t : ElementType) : bool :=
  match t with way => true | _ => false end.

(** ** The parsing loop of [useOverpassData] *)

(** [el.geometry.map((p) => [p.lat, p.lon])] *)
Definition to_pairs (g : list LatLon) : Line :=
  map (fun p => (lat p, lon p)) g.

(** [first[0] !== last[0] || first[1] !== last[1]] *)
Definition differs (first last : Pair) : bool :=
  strict_ne (fst first) (fst last) || strict_ne (snd first) (snd last).

(** The body of [if (poly.length > 2) { ... }], reached with [poly] of more
    than two points: [poly] with [first] pushed when the ends differ. *)
Definition close_poly (poly : Line) : Line :=
  match head poly, last poly with
  | Some first, Some lst => if differs first lst then poly ++ [first] else poly
  | _, _ => poly
  end.

(** The local arrays [_roads] and [_buildings]. *)
Record Acc := { _roads : Layer; _buildings : Layer }.

Definition empty_acc : Acc := {| _roads := []; _buildings := [] |}.

(** One iteration of [for (const el of json.elements)]. *)
Definition visit (acc : Acc) (el : OverpassElement) : Acc :=
  match is_way (type el), geometry el, tags el with
  | true, Some g, Some t =>
      if truthy (t !! "highway") then
        {| _roads := _roads acc ++ [to_pairs g]; _buildings := _buildings acc |}
      else if truthy (t !! "building") then
        let poly := to_pairs g in
        if (2 <? length poly)%nat then
          {| _roads := _roads acc;
             _buildings := _buildings acc ++ [close_poly poly] |}
        else acc
      else acc
  | _, _, _ => acc
  end.

Definition collect (els : list OverpassElement) : Acc :=
  fold_left visit els empty_acc.

(** The cap of [_buildings.slice(0, 4000)]. *)
Definition building_cap : nat := 4000.

(** [Array.prototype.slice(0, n)] *)
Definition slice0 {A} (n : nat) (l : list A) : list A := take n l.

(** The values handed to [setRoads] and [setBuildings]. *)
Definition parsed_roads (json : OverpassResponse) : Layer :=
  _roads (collect (elements json)).

Definition parsed_buildings (json : OverpassResponse) : Layer :=
  slice0 building_cap (_buildings (collect (elements json))).

(** ** Classification

    The branch conditions of the loop, named after the specification's
    glossary: an element is roadway-tagged when [el.tags["highway"]] is
    truthy and structure-tagged when [el.tags["building"]] is. *)

Definition way_with_geometry (el : OverpassElement) : bool :=
  is_way (type el) && bool_decide (is_Some (geometry el))
                   && bool_decide (is_Some (tags el)).

Definition roadway_tagged (el : OverpassElement) : bool :=
  match tags el with Some t => truthy (t !! "highway") | None => false end.

Definition structure_tagged (el : OverpassElement) : bool :=
  match tags el with Some t => truthy (t !! "building") | None => false end.

Definition points_of (el : OverpassElement) : list LatLon :=
  default [] (geometry el).

(** The elements that reach [_roads.push] and [_buildings.push]. *)
Definition yields_road (el : OverpassElement) : bool :=
  way_with_geometry el && roadway_tagged el.

Definition yields_building (el : OverpassElement) : bool :=
  way_with_geometry el && negb (roadway_tagged el) && structure_tagged el
  && (2 <? length (points_of el))%nat.

(** [x === y] on coordinate pairs, component by component. *)
Definition pair_eq (a b : Pair) : bool :=
  strict_eq (fst a) (fst b) && strict_eq (snd a) (snd b).

(** A polygon is closed when it has a first and a last pair and they are
    equal. *)
Definition closed (poly : Line) : bool :=
  match head poly, last poly with
  | Some first, Some lst => pair_eq first lst
  | _, _ => false
  end.

(** [JSON.parse] yields finite numbers and infinities, never a NaN. *)
Definition json_number (x : number) : bool := negb (PrimFloat.is_nan x).

Definition json_point (p : LatLon) : bool :=
  json_number (lat p) && json_number (lon p).

Definition json_element (el : OverpassElement) : bool :=
  forallb json_point (points_of el).

Definition json_response (json : OverpassResponse) : bool :=
  forallb json_element (elements json).

(** ** The state of the hook and the fetch effect *)

Record Bbox := { south : number; west : number; north : number; east : number }.

Record HookState := {
  roads : Layer;
  buildings : Layer;
  loading : bool;
  error : option string
}.

(** [useState([])], [useState([])], [useState(true)], [useState(null)] *)
Definition init_hook : HookState :=
  {| roads := []; buildings := []; loading := true; error := None |}.

Definition setRoads (v : Layer) (h : HookState) : HookState :=
  {| roads := v; buildings := buildings h; loading := loading h; error := error h |}.
Definition setBuildings (v : Layer) (h : HookState) : HookState :=
  {| roads := roads h; buildings := v; loading := loading h; error := error h |}.
Definition setLoading (v : bool) (h : HookState) : HookState :=
  {| roads := roads h; buildings := buildings h; loading := v; error := error h |}.
Definition setError (v : option string) (h : HookState) : HookState :=
  {| roads := roads h; buildings := buildings h; loading := loading h; error := v |}.

(** A thrown value, as far as [catch] looks at it: [e?.message], absent
    when [e] or its [message] is nullish. *)
Record Thrown := { message : option string }.

(** [e?.message ?? "Failed to load map data"] *)
Definition error_text (e : Thrown) : string :=
  default "Failed to load map data" (message e).

(** How [await fetch(...)] settles: a rejection (network error) or a
    response with a status. *)
Inductive FetchResult :=
| Rejected (e : Thrown)
| Responded (status : N).

(** [res.ok]: the status is in the range 200-299. *)
Definition ok (status : N) : bool := (200 <=? status)%N && (status <=? 299)%N.

(** [new Error(`Overpass error: ${res.status}`)] *)
Definition overpass_error (status : N) : Thrown :=
  {| message := Some (String.append "Overpass error: " (pretty status)) |}.

(** How [await res.json()] settles: a rejection (malformed JSON) or the
    parsed response. *)
Inductive BodyResult :=
| BodyRejected (e : Thrown)
| BodyParsed (json : OverpassResponse).

(** Where a run of [fetchData] is suspended. *)
Inductive Phase := AwaitFetch | AwaitBody | Finished.

(** One run of the effect: the bounding box it was started for, its own
    [cancelled] variable, and the point its [fetchData] has reached. *)
Record Effect := { deps : Bbox; cancelled : bool; phase : Phase }.

Definition set_cancelled (e : Effect) : Effect :=
  {| deps := deps e; cancelled := true; phase := phase e |}.
Definition set_phase (p : Phase) (e : Effect) : Effect :=
  {| deps := deps e; cancelled := cancelled e; phase := p |}.

(** [catch (e) { if (!cancelled) setError(...) }] *)
Definition catch_block (c : bool) (e : Thrown) (h : HookState) : HookState :=
  if c then h else setError (Some (error_text e)) h.

(** [finally { if (!cancelled) setLoading(false) }] *)
Definition finally_block (c : bool) (h : HookState) : HookState :=
  if c then h else setLoading false h.

(** A throw inside [try]: [catch], then [finally]. *)
Definition throw (c : bool) (e : Thrown) (h : HookState) : HookState :=
  finally_block c (catch_block c e h).

(** [fetchData] resumes after [await fetch(...)]. *)
Definition resume_fetch (r : FetchResult) (c : bool) (h : HookState)
  : Phase * HookState :=
  match r with
  | Rejected e => (Finished, throw c e h)
  | Responded status =>
      if ok status then (AwaitBody, h)
      else (Finished, throw c (overpass_error status) h)
  end.

(** [fetchData] resumes after [await res.json()]. *)
Definition resume_body (b : BodyResult) (c : bool) (h : HookState)
  : Phase * HookState :=
  match b with
  | BodyRejected e => (Finished, throw c e h)
  | BodyParsed json =>
      if c then (Finished, finally_block c h)
      else (Finished,
            finally_block c
              (setBuildings (parsed_buildings json)
                 (setRoads (parsed_roads json) h)))
  end.

(** The component instance: the hook's state, whether it was torn down, and
    every run of the effect so far, the last one being the current one. *)
Record World := { hook : HookState; unmounted : bool; effects : list Effect }.

Definition init_world : World :=
  {| hook := init_hook; unmounted := false; effects := [] |}.

(** The dependency array [[bbox.east, bbox.north, bbox.south, bbox.west]],
    compared entry by entry with [Object.is]. *)
Definition same_deps (a b : Bbox) : bool :=
  PrimFloat.Leibniz.eqb (east a) (east b)
  && PrimFloat.Leibniz.eqb (north a) (north b)
  && PrimFloat.Leibniz.eqb (south a) (south b)
  && PrimFloat.Leibniz.eqb (west a) (west b).

(** The cleanup [() => { cancelled = true; }] of the current run. *)
Definition cleanup (effs : list Effect) : list Effect :=
  alter set_cancelled (length effs - 1) effs.

(** The effect body: [let cancelled = false], then [fetchData()] up to its
    first [await]. *)
Definition run_effect (b : Bbox) (w : World) : World :=
  {| hook := setError None (setLoading true (hook w));
     unmounted := unmounted w;
     effects := cleanup (effects w)
                ++ [ {| deps := b; cancelled := false; phase := AwaitFetch |} ] |}.

Inductive Event :=
| Render (b : Bbox)
| Unmount
| FetchSettled (i : nat) (r : FetchResult)
| BodySettled (i : nat) (r : BodyResult).

Definition settle (i : nat) (e : Effect) (res : Phase * HookState) (w : World)
  : World :=
  {| hook := snd res;
     unmounted := unmounted w;
     effects := <[ i := set_phase (fst res) e ]> (effects w) |}.

Definition step (w : World) (ev : Event) : World :=
  match ev with
  | Render b =>
      if unmounted w then w
      else match last (effects w) with
           | Some e => if same_deps (deps e) b then w else run_effect b w
           | None => run_effect b w
           end
  | Unmount =>
      if unmounted w then w
      else {| hook := hook w; unmounted := true;
              effects := cleanup (effects w) |}
  | FetchSettled i r =>
      match effects w !! i with
      | Some e =>
          match phase e with
          | AwaitFetch => settle i e (resume_fetch r (cancelled e) (hook w)) w
          | _ => w
          end
      | None => w
      end
  | BodySettled i r =>
      match effects w !! i with
      | Some e =>
          match phase e with
          | AwaitBody => settle i e (resume_body r (cancelled e) (hook w)) w
          | _ => w
          end
      | None => w
      end
  end.

Definition run (evs : list Event) : World := fold_left step evs init_world.

(** The run whose cleanup has not been called yet, if any. *)
Definition current (w : World) : option nat :=
  if unmounted w then None
  else match effects w with
       | [] => None
       | _ :: _ => Some (length (effects w) - 1)
       end.

(** Only the current run can have [cancelled] still false. *)
Definition one_live_run (w : World) : Prop :=
  forall i e, effects w !! i = Some e -> cancelled e = false ->
              current w = Some i.

(** While a run that is not cancelled is suspended, [loading] is true and
    [error] is null; once it has finished, [loading] is false. *)
Definition loading_tracks (w : World) : Prop :=
  forall i e, effects w !! i = Some e -> cancelled e = false ->
    match phase e with
    | Finished => loading (hook w) = false
    | _ => loading (hook w) = true /\ error (hook w) = None
    end.

(** The run a settling event resumes. *)
Definition target (ev : Event) : option nat :=
  match ev with
  | FetchSettled i _ | BodySettled i _ => Some i
  | _ => None
  end.

(** A bounding-box change or a teardown, as the instance [w] sees it. *)
Definition supersedes (w : World) (ev : Event) : bool :=
  match ev with
  | Render b =>
      negb (unmounted w)
      && match last (effects w) with
         | Some e => negb (same_deps (deps e) b)
         | None => true
         end
  | Unmount => negb (unmounted w)
  | _ => false
  end.

(** The failure a settling event brings to a run in phase [p], if any. *)
Definition failure (p : Phase) (ev : Event) : option Thrown :=
  match p, ev with
  | AwaitFetch, FetchSettled _ (Rejected e) => Some e
  | AwaitFetch, FetchSettled _ (Responded status) =>
      if ok status then None else Some (overpass_error status)
  | AwaitBody, BodySettled _ (BodyRejected e) => Some e
  | _, _ => None
  end.

(** ** The selection state of [SmolenskMap] *)

Module Selection.

Record Point := { id : number; name : string; coords : Pair }.

Definition points : list Point :=
  [ {| id := 1; name := "Smolensk Center"; coords := (54.7818, 32.0401)%float |};
    {| id := 2; name := "Lopatinsky Garden"; coords := (54.7769, 32.0496)%float |};
    {| id := 3; name := "Smolensk Fortress Wall"; coords := (54.7838, 32.0436)%float |} ].

Record State := {
  panelOpen : bool;
  activePoint : option number;
  showLabels : bool
}.

(** [useState(false)], [useState(null)], [useState(false)] *)
Definition init : State :=
  {| panelOpen := false; activePoint := None; showLabels := false |}.

Definition setPanelOpen (v : bool) (s : State) : State :=
  {| panelOpen := v; activePoint := activePoint s; showLabels := showLabels s |}.
Definition setActivePoint (v : option number) (s : State) : State :=
  {| panelOpen := panelOpen s; activePoint := v; showLabels := showLabels s |}.
Definition setShowLabels (v : bool) (s : State) : State :=
  {| panelOpen := panelOpen s; activePoint := activePoint s; showLabels := v |}.

Definition handlePointClick (i : number) (s : State) : State :=
  setPanelOpen true (setActivePoint (Some i) s).

(** The Close button: [onClick={() => setPanelOpen(false)}] *)
Definition close (s : State) : State := setPanelOpen false s.

(** [active={activePoint === p.id}] *)
Definition active (s : State) (p : Point) : bool :=
  match activePoint s with
  | Some a => strict_eq a (id p)
  | None => false
  end.

(** What the user can do: click the [k]-th marker, whose handler is
    [() => handlePointClick(p.id)], click Close, or flip the switch. *)
Inductive Action :=
| ClickMarker (k : nat)
| ClickClose
| Toggle (v : bool).

Definition act (s : State) (a : Action) : State :=
  match a with
  | ClickMarker k =>
      match points !! k with
      | Some p => handlePointClick (id p) s
      | None => s
      end
  | ClickClose => close s
  | Toggle v => setShowLabels v s
  end.

Definition play (acts : list Action) : State := fold_left act acts init.

End Selection.

(** ** What [SmolenskMap] renders from the selection state *)

Module View.
Import Selection.

Definition panelWidth : N := 360.

(** [panelOpen ? `calc(100% - ${panelWidth}px)` : "100%"] *)
Definition mapWidth (s : State) : string :=
  if panelOpen s
  then String.append "calc(100% - " (String.append (pretty panelWidth) "px)")
  else "100%".

(** The guard of the side panel: [panelOpen && activePoint != null] *)
Definition panel_shown (s : State) : bool :=
  panelOpen s && match activePoint s with Some _ => true | None => false end.

(** [p.id === activePoint], with [activePoint] a number or [null] *)
Definition is_active_id (s : State) (p : Point) : bool :=
  match activePoint s with
  | Some a => strict_eq (id p) a
  | None => false
  end.

(** [points.find((p) => p.id === activePoint)], the point handed to
    [PanelContent] under a non-null assertion. *)
Definition panel_point (s : State) : option Point :=
  List.find (is_active_id s) points.

Definition is_toggle (a : Action) : bool :=
  match a with Toggle _ => true | _ => false end.

End View.

(** ** [InvalidateOnToggle]

    The effect sets a timer that calls [map.invalidateSize()] once the
    layout transition has settled, and its cleanup clears that timer.  The
    effect runs again when [open] changes; [map] is the one map of the
    enclosing container. *)

Module Invalidate.

Inductive Timer := Pending | Cleared | Fired.

Record MapView := {
  timers : list Timer;
  invalidateSize_calls : nat;
  open : option bool;
  unmounted : bool
}.

Definition init : MapView :=
  {| timers := []; invalidateSize_calls := 0; open := None;
     unmounted := false |}.

(** [clearTimeout(t)] drops a pending timer and does nothing to one that
    has fired or was cleared. *)
Definition clearTimeout (t : Timer) : Timer :=
  match t with Pending => Cleared | Cleared => Cleared | Fired => Fired end.

(** The cleanup [() => clearTimeout(t)] of the last run. *)
Definition cleanup (ts : list Timer) : list Timer :=
  alter clearTimeout (length ts - 1) ts.

(** The effect body: [const t = setTimeout(() => map.invalidateSize(), 350)] *)
Definition run_effect (o : bool) (v : MapView) : MapView :=
  {| timers := cleanup (timers v) ++ [Pending];
     invalidateSize_calls := invalidateSize_calls v;
     open := Some o;
     unmounted := unmounted v |}.

Inductive Event :=
| Render (o : bool)
| Unmount
| Elapse (t : nat).

Definition step (v : MapView) (ev : Event) : MapView :=
  match ev with
  | Render o =>
      if unmounted v then v
      else match open v with
           | Some o' => if Bool.eqb o' o then v else run_effect o v
           | None => run_effect o v
           end
  | Unmount =>
      if unmounted v then v
      else {| timers := cleanup (timers v);
              invalidateSize_calls := invalidateSize_calls v;
              open := open v;
              unmounted := true |}
  | Elapse t =>
      match timers v !! t with
      | Some Pending =>
          {| timers := <[ t := Fired ]> (timers v);
             invalidateSize_calls := S (invalidateSize_calls v);
             open := open v;
             unmounted := unmounted v |}
      | _ => v
      end
  end.

Definition run (evs : list Event) : MapView := fold_left step evs init.

(** An event that runs the cleanup of the last effect run. *)
Definition supersedes (v : MapView) (ev : Event) : bool :=
  match ev with
  | Render o =>
      negb (unmounted v)
      && match open v with Some o' => negb (Bool.eqb o' o) | None => true end
  | Unmount => negb (unmounted v)
  | Elapse _ => false
  end.

Definition is_pending (t : Timer) : bool :=
  match t with Pending => true | _ => false end.

Definition is_fired (t : Timer) : bool :=
  match t with Fired => true | _ => false end.

(** Only the timer set last can still be pending, and none is once the
    component is torn down. *)
Definition one_pending (v : MapView) : Prop :=
  forall t, timers v !! t = Some Pending ->
            unmounted v = false /\ t = length (timers v) - 1.

(** The calls of [map.invalidateSize()] are the timers that have fired. *)
Definition calls_are_fired (v : MapView) : Prop :=
  invalidateSize_calls v = length (List.filter is_fired (timers v)).

End Invalidate.

(** ** Elements used in examples *)

(** The element of the specification's example. *)
Definition example_element : OverpassElement :=
  {| type := way;
     id := 1;
     tags := Some {[ "building" := "yes" ]};
     geometry := Some [ {| lat := 1; lon := 1 |};
                        {| lat := 1; lon := 2 |};
                        {| lat := 2; lon := 2 |} ] |}.

(** The second point of interest. *)
Definition garden : Selection.Point :=
  {| Selection.id := 2; Selection.name := "Lopatinsky Garden";
     Selection.coords := (54.7769, 32.0496)%float |}.

(** The example outline under another identifier and other tags. *)
Definition named_house : OverpassElement :=
  {| type := way;
     id := 77;
     tags := Some {[ "building" := "house"; "name" := "Depot" ]};
     geometry := Some [ {| lat := 1; lon := 1 |};
                        {| lat := 1; lon := 2 |};
                        {| lat := 2; lon := 2 |} ] |}.

(** A structure-tagged way of two points. *)
Definition short_structure : OverpassElement :=
  {| type := way;
     id := 2;
     tags := Some {[ "building" := "yes" ]};
     geometry := Some [ {| lat := 1; lon := 1 |}; {| lat := 1; lon := 2 |} ] |}.

(** A roadway-tagged way of two points. *)
Definition example_road : OverpassElement :=
  {| type := way;
     id := 3;
     tags := Some {[ "highway" := "residential" ]};
     geometry := Some [ {| lat := 1; lon := 1 |}; {| lat := 1; lon := 2 |} ] |}.

(** A node: no geometry. *)
Definition example_node : OverpassElement :=
  {| type := node; id := 4; tags := Some ∅; geometry := None |}.

(** The bounding box [SmolenskMap] asks for. *)
Definition SMOLENSK_CENTER : Pair := (54.7818, 32.0401)%float.

Definition bbox : Bbox :=
  let dLat := 0.12%float in
  let dLon := 0.18%float in
  {| south := fst SMOLENSK_CENTER - dLat;
     north := fst SMOLENSK_CENTER + dLat;
     west := snd SMOLENSK_CENTER - dLon;
     east := snd SMOLENSK_CENTER + dLon |}%float.

Definition other_bbox : Bbox :=
  {| south := 55; west := 37; north := 56; east := 38 |}.

(** What one element adds to [_roads] and [_buildings]. *)
Definition contribution (el : OverpassElement) : Acc := visit empty_acc el.

(** * Properties of the parsing loop *)

Lemma visit_contribution acc el :
  visit acc el
  = {| _roads := _roads acc ++ _roads (contribution el);
       _buildings := _buildings acc ++ _buildings (contribution el) |}.
Proof.
  unfold contribution, visit. destruct acc as [rs bs]; simpl.
  destruct (is_way (type el)), (geometry el), (tags el); simpl;
    rewrite ?app_nil_r; try reflexivity.
  repeat case_match; simpl; rewrite ?app_nil_r; reflexivity.
Qed.

Lemma fold_visit els : forall acc,
  fold_left visit els acc
  = {| _roads := _roads acc ++ _roads (collect els);
       _buildings := _buildings acc ++ _buildings (collect els) |}.
Proof.
  unfold collect. induction els as [|el els IH]; intros acc; simpl.
  - destruct acc; simpl. by rewrite !app_nil_r.
  - rewrite (IH (visit acc el)), (IH (visit empty_acc el)).
    rewrite visit_contribution. unfold contribution. simpl.
    by rewrite !app_assoc.
Qed.

Lemma collect_cons el els :
  collect (el :: els)
  = {| _roads := _roads (contribution el) ++ _roads (collect els);
       _buildings := _buildings (contribution el) ++ _buildings (collect els) |}.
Proof. unfold collect at 1. simpl. by rewrite fold_visit. Qed.

Lemma collect_app pre post :
  collect (pre ++ post)
  = {| _roads := _roads (collect pre) ++ _roads (collect post);
       _buildings := _buildings (collect pre) ++ _buildings (collect post) |}.
Proof.
  unfold collect at 1. rewrite fold_left_app. fold (collect pre).
  by rewrite fold_visit.
Qed.

Lemma collect_insert pre el post :
  collect (pre ++ el :: post)
  = {| _roads := _roads (collect pre) ++ _roads (contribution el)
                 ++ _roads (collect post);
       _buildings := _buildings (collect pre) ++ _buildings (contribution el)
                     ++ _buildings (collect post) |}.
Proof. by rewrite collect_app, collect_cons. Qed.

Lemma contribution_spec el :
  contribution el
  = if yields_road el then
      {| _roads := [to_pairs (points_of el)]; _buildings := [] |}
    else if yields_building el then
      {| _roads := []; _buildings := [close_poly (to_pairs (points_of el))] |}
    else empty_acc.
Proof.
  unfold contribution, visit, yields_road, yields_building, way_with_geometry,
    roadway_tagged, structure_tagged, points_of, to_pairs.
  destruct (is_way (type el)), (geometry el) as [g|], (tags el) as [t|];
    simpl; try reflexivity.
  rewrite length_map.
  destruct (truthy (t !! "highway")), (truthy (t !! "building")),
    (2 <? length g)%nat; reflexivity.
Qed.

Lemma roads_filter els :
  _roads (collect els)
  = map (fun el => to_pairs (points_of el)) (filter yields_road els).
Proof.
  induction els as [|el els IH]; [reflexivity|].
  rewrite collect_cons, contribution_spec, filter_cons. simpl.
  destruct (yields_road el) eqn:R.
  - rewrite decide_True by exact I. simpl. by rewrite IH.
  - rewrite decide_False by exact (fun H => H).
    destruct (yields_building el); simpl; by rewrite IH.
Qed.

Lemma buildings_filter els :
  _buildings (collect els)
  = map (fun el => close_poly (to_pairs (points_of el)))
        (filter yields_building els).
Proof.
  induction els as [|el els IH]; [reflexivity|].
  rewrite collect_cons, contribution_spec, filter_cons. simpl.
  destruct (yields_road el) eqn:R; simpl.
  - assert (yields_building el = false) as ->.
    { unfold yields_building, yields_road in *.
      by apply andb_prop in R as [-> ->]. }
    by rewrite decide_False by exact (fun H => H).
  - destruct (yields_building el) eqn:B; simpl; by rewrite IH.
Qed.

Lemma strict_eq_refl x : json_number x = true -> strict_eq x x = true.
Proof.
  unfold json_number, PrimFloat.is_nan, strict_eq.
  destruct (PrimFloat.eqb x x); [reflexivity | discriminate].
Qed.

Lemma pair_eq_refl (a : Pair) :
  json_number (fst a) = true -> json_number (snd a) = true ->
  pair_eq a a = true.
Proof.
  intros H1 H2. unfold pair_eq. by rewrite !strict_eq_refl.
Qed.

Lemma differs_pair_eq a b : differs a b = negb (pair_eq a b).
Proof.
  unfold differs, pair_eq, strict_ne. by rewrite negb_andb.
Qed.

Lemma close_poly_closed (poly : Line) first :
  head poly = Some first ->
  json_number (fst first) = true -> json_number (snd first) = true ->
  closed (close_poly poly) = true.
Proof.
  intros Hh H1 H2. unfold close_poly. rewrite Hh.
  destruct (last poly) as [lst|] eqn:Hl.
  - rewrite differs_pair_eq. destruct (pair_eq first lst) eqn:E; simpl.
    + unfold closed. by rewrite Hh, Hl.
    + unfold closed. rewrite last_snoc.
      destruct poly as [|p poly]; [discriminate|]. simpl in *.
      injection Hh as ->. by apply pair_eq_refl.
  - destruct poly; [discriminate|]. by rewrite last_cons in Hl; destruct (last poly).
Qed.

Lemma json_head_pair (g : list LatLon) first :
  forallb json_point g = true -> head (to_pairs g) = Some first ->
  json_number (fst first) = true /\ json_number (snd first) = true.
Proof.
  destruct g as [|p g]; [discriminate|]. simpl.
  intros H [= <-]. apply andb_prop in H as [H _].
  apply andb_prop in H. exact H.
Qed.

Lemma yields_building_length el :
  yields_building el = true -> 2 < length (points_of el).
Proof.
  unfold yields_building. intros H. apply andb_prop in H as [_ H].
  by apply Nat.ltb_lt.
Qed.

Lemma yields_building_way el :
  yields_building el = true ->
  way_with_geometry el = true /\ structure_tagged el = true
  /\ roadway_tagged el = false.
Proof.
  unfold yields_building. intros H.
  apply andb_prop in H as [H _]. apply andb_prop in H as [H ?].
  apply andb_prop in H as [? H]. by apply negb_true_iff in H.
Qed.

Lemma take_elem {A} (n : nat) (l : list A) x : x ∈ take n l -> x ∈ l.
Proof. intros H. by eapply subseteq_take. Qed.

(** C6: the element [{type:"way", tags:{building:"yes"},
    geometry:[(1,1),(1,2),(2,2)]}] yields exactly one building polygon,
    [[1,1],[1,2],[2,2],[1,1]], and no road. *)
Theorem example_building_polygon :
  parsed_buildings {| elements := [example_element] |}
    = [ [ (1, 1); (1, 2); (2, 2); (1, 1) ] ]%float
  /\ parsed_roads {| elements := [example_element] |} = [].
Proof. split; vm_compute; reflexivity. Qed.

(** C1: every polygon of the building output comes from a fetched way with
    geometry that is tagged as structure, and its first and last coordinate
    pairs are equal, whether or not the input outline was closed.  The
    numbers of the response are those of a JSON document: none is a NaN. *)
Theorem building_polygons_closed json (poly : Line) :
  json_response json = true ->
  poly ∈ parsed_buildings json ->
  closed poly = true
  /\ exists el, el ∈ elements json
       /\ way_with_geometry el = true /\ structure_tagged el = true
       /\ poly = close_poly (to_pairs (points_of el)).
Proof.
  intros Hj Hin. unfold parsed_buildings, slice0 in Hin.
  apply take_elem in Hin. rewrite buildings_filter in Hin.
  apply list_elem_of_fmap in Hin as (el & -> & Hel).
  apply list_elem_of_filter in Hel as [Hb Hel].
  apply Is_true_true in Hb.
  destruct (yields_building_way el Hb) as (Hw & Hs & _).
  split; [|by exists el].
  pose proof (yields_building_length el Hb) as Hlen.
  unfold json_response in Hj. rewrite forallb_forall in Hj.
  apply list_elem_of_In in Hel. specialize (Hj el Hel). unfold json_element in Hj.
  destruct (head (to_pairs (points_of el))) as [first|] eqn:Hh.
  - destruct (json_head_pair _ _ Hj Hh). by eapply close_poly_closed.
  - destruct (points_of el); simpl in *; [lia | discriminate].
Qed.

Lemma building_polygons_closed_witness :
  json_response {| elements := [example_element] |} = true
  /\ [ (1, 1); (1, 2); (2, 2); (1, 1) ]%float
       ∈ parsed_buildings {| elements := [example_element] |}
  /\ closed [ (1, 1); (1, 2); (2, 2); (1, 1) ]%float = true.
Proof.
  assert (Hin : [ (1, 1); (1, 2); (2, 2); (1, 1) ]%float
                  ∈ parsed_buildings {| elements := [example_element] |}).
  { apply list_elem_of_In. vm_compute. left. reflexivity. }
  split; [reflexivity|]. split; [exact Hin|].
  exact (proj1 (building_polygons_closed
                  {| elements := [example_element] |} _ eq_refl Hin)).
Defined.

(** Why the numbers must be those of a JSON document: an outline whose first
    latitude is a NaN gets its first pair pushed, and still its ends are not
    [===] to each other. *)
Example nan_outline_not_closed :
  close_poly [ (nan, 1); (1, 2); (2, 2) ]%float
  = [ (nan, 1); (1, 2); (2, 2); (nan, 1) ]%float
  /\ closed (close_poly [ (nan, 1); (1, 2); (2, 2) ]%float) = false.
Proof. split; vm_compute; reflexivity. Qed.

(** An outline that ends on the other zero counts as closed already. *)
Example signed_zero_outline :
  close_poly [ (0, 0); (1, 2); (2, 2); (-0, 0) ]%float
  = [ (0, 0); (1, 2); (2, 2); (-0, 0) ]%float.
Proof. vm_compute. reflexivity. Qed.

Lemma yields_road_intro el g t :
  type el = way -> geometry el = Some g -> tags el = Some t ->
  truthy (t !! "highway") = true ->
  yields_road el = true /\ points_of el = g.
Proof.
  intros Hty Hg Ht Hh.
  unfold yields_road, way_with_geometry, roadway_tagged, points_of.
  by rewrite Hty, Hg, Ht, Hh.
Qed.

Lemma to_pairs_lookup (g : list LatLon) i :
  to_pairs g !! i = (fun p => (lat p, lon p)) <$> g !! i.
Proof. unfold to_pairs. apply list_lookup_fmap. Qed.

Lemma truthy_nonempty (v : option string) :
  is_Some v -> v <> Some "" -> truthy v = true.
Proof.
  intros [x ->] Hne. simpl. apply negb_true_iff, String.eqb_neq.
  congruence.
Qed.

(** C2: for a fetched way with geometry whose tags contain [highway], every
    entry it adds to the roads output has as many points as the geometry,
    and its pair at every index is [[lat, lon]] of the point at that index;
    the entries sit between those of the elements before and behind it.
    With a non-empty tag value (an empty string is falsy) there is exactly
    one such entry. *)
Theorem road_points_preserved pre el post (g : list LatLon)
    (t : gmap string string) :
  type el = way -> geometry el = Some g -> tags el = Some t ->
  is_Some (t !! "highway") ->
  parsed_roads {| elements := pre ++ el :: post |}
    = parsed_roads {| elements := pre |} ++ _roads (contribution el)
        ++ parsed_roads {| elements := post |}
  /\ (forall line : Line, line ∈ _roads (contribution el) ->
        length line = length g
        /\ forall i, line !! i = (fun p => (lat p, lon p)) <$> g !! i)
  /\ (t !! "highway" <> Some "" ->
        _roads (contribution el) = [to_pairs g]
        /\ parsed_roads {| elements := pre ++ el :: post |}
             !! length (parsed_roads {| elements := pre |})
           = Some (to_pairs g)).
Proof.
  intros Hty Hg Ht Hh. unfold parsed_roads. simpl.
  rewrite collect_insert. simpl. split; [reflexivity|].
  assert (Hp : points_of el = g) by (unfold points_of; by rewrite Hg).
  split.
  - intros line. rewrite contribution_spec.
    destruct (yields_road el); [|destruct (yields_building el)]; simpl;
      intros Hin; try by apply elem_of_nil in Hin.
    apply list_elem_of_singleton in Hin as ->. rewrite Hp.
    split; [apply length_map | apply to_pairs_lookup].
  - intros Hne. pose proof (truthy_nonempty _ Hh Hne) as Htr.
    destruct (yields_road_intro el g t Hty Hg Ht Htr) as [Hr _].
    rewrite contribution_spec, Hr, Hp. simpl.
    split; [reflexivity|]. by rewrite list_lookup_middle.
Qed.

Lemma road_points_preserved_witness :
  type example_road = way
  /\ is_Some (({[ "highway" := "residential" ]} : gmap string string) !! "highway")
  /\ parsed_roads {| elements := [example_element] ++ example_road :: [example_node] |}
       !! 0 = Some [ (1, 1); (1, 2) ]%float.
Proof.
  split; [reflexivity|]. split; [by eexists|].
  refine (proj2 (proj2 (proj2 (road_points_preserved
            [example_element] example_road [example_node] _ _
            eq_refl eq_refl eq_refl _)) _)).
  - by eexists.
  - discriminate.
Defined.

(** C3: the building output is the first 4000 polygons of [_buildings], so
    it never has more than 4000 entries, however many structure elements
    qualify; the roads output has one entry for every qualifying roadway
    element, none dropped. *)
Theorem building_cap_enforced json :
  length (parsed_buildings json) <= 4000
  /\ length (parsed_buildings json)
     = 4000 `min` length (filter yields_building (elements json))
  /\ parsed_buildings json
     = take 4000 (map (fun el => close_poly (to_pairs (points_of el)))
                      (filter yields_building (elements json)))
  /\ parsed_roads json
     = map (fun el => to_pairs (points_of el))
           (filter yields_road (elements json))
  /\ length (parsed_roads json) = length (filter yields_road (elements json)).
Proof.
  unfold parsed_buildings, parsed_roads, slice0, building_cap.
  rewrite buildings_filter, roads_filter, length_take, !length_map.
  repeat split; lia.
Qed.

(** The cap at work: 4001 copies of the example building leave 4000
    polygons, and 4001 copies of the example road leave 4001 polylines. *)
Example cap_reached :
  length (parsed_buildings {| elements := replicate 4001 example_element |}) = 4000
  /\ length (parsed_roads {| elements := replicate 4001 example_road |}) = 4001.
Proof. split; vm_compute; reflexivity. Qed.

Lemma close_poly_length (poly : Line) : length poly <= length (close_poly poly).
Proof.
  unfold close_poly. repeat case_match; rewrite ?length_app; lia.
Qed.

Lemma skipped_contribution el :
  type el <> way \/ geometry el = None \/ tags el = None ->
  contribution el = empty_acc.
Proof.
  unfold contribution, visit.
  intros [H | [-> | ->]].
  - destruct (type el); [congruence | reflexivity | reflexivity].
  - by destruct (is_way (type el)).
  - by destruct (is_way (type el)), (geometry el).
Qed.

Lemma collect_drop pre el post :
  contribution el = empty_acc ->
  collect (pre ++ el :: post) = collect (pre ++ post).
Proof.
  intros H. by rewrite collect_insert, collect_app, H.
Qed.

(** C9: an element that is not a way, or has no geometry, or has no tags,
    adds nothing to [_roads] or [_buildings]: the loop gives the same arrays
    as without it, and so do the roads and building outputs. *)
Theorem skipped_elements_contribute_nothing pre el post :
  type el <> way \/ geometry el = None \/ tags el = None ->
  contribution el = empty_acc
  /\ collect (pre ++ el :: post) = collect (pre ++ post)
  /\ parsed_roads {| elements := pre ++ el :: post |}
     = parsed_roads {| elements := pre ++ post |}
  /\ parsed_buildings {| elements := pre ++ el :: post |}
     = parsed_buildings {| elements := pre ++ post |}.
Proof.
  intros H. pose proof (skipped_contribution el H) as Hc.
  unfold parsed_roads, parsed_buildings. simpl.
  by rewrite (collect_drop pre el post Hc).
Qed.

Lemma skipped_elements_contribute_nothing_witness :
  (type example_node <> way \/ geometry example_node = None
   \/ tags example_node = None)
  /\ parsed_roads {| elements := [example_road] ++ example_node :: [example_element] |}
     = parsed_roads {| elements := [example_road] ++ [example_element] |}
  /\ parsed_buildings {| elements := [example_road] ++ example_node :: [example_element] |}
     = parsed_buildings {| elements := [example_road] ++ [example_element] |}.
Proof.
  assert (H : type example_node <> way \/ geometry example_node = None
              \/ tags example_node = None) by (left; discriminate).
  split; [exact H|].
  exact (proj2 (proj2 (skipped_elements_contribute_nothing
                         [example_road] example_node [example_element] H))).
Defined.

Lemma short_not_building el (g : list LatLon) :
  geometry el = Some g -> length g <= 2 -> yields_building el = false.
Proof.
  intros Hg Hlen. unfold yields_building, points_of. rewrite Hg. simpl.
  apply andb_false_intro2. apply Nat.ltb_ge. exact Hlen.
Qed.

(** C10: a way tagged [building] whose geometry has two points or fewer
    adds no polygon to the building output (and nothing at all unless it is
    taken as a road); every polygon of the building output has at least
    three points. *)
Theorem short_structures_discarded pre el post (g : list LatLon)
    (t : gmap string string) json (poly : Line) :
  (type el = way -> geometry el = Some g -> tags el = Some t ->
   is_Some (t !! "building") -> length g <= 2 ->
   _buildings (contribution el) = []
   /\ parsed_buildings {| elements := pre ++ el :: post |}
      = parsed_buildings {| elements := pre ++ post |}
   /\ (truthy (t !! "highway") = false ->
       collect (pre ++ el :: post) = collect (pre ++ post)))
  /\ (poly ∈ parsed_buildings json -> 3 <= length poly).
Proof.
  split.
  - intros Hty Hg Ht _ Hlen.
    pose proof (short_not_building el g Hg Hlen) as Hb.
    assert (Hc : _buildings (contribution el) = []).
    { rewrite contribution_spec, Hb. by destruct (yields_road el). }
    split; [exact Hc|]. split.
    + unfold parsed_buildings. simpl.
      by rewrite collect_insert, collect_app, Hc.
    + intros Hh. apply collect_drop. rewrite contribution_spec, Hb.
      unfold yields_road, roadway_tagged. rewrite Ht, Hh.
      by rewrite andb_false_r.
  - intros Hin. unfold parsed_buildings, slice0 in Hin.
    apply take_elem in Hin. rewrite buildings_filter in Hin.
    apply list_elem_of_fmap in Hin as (e & -> & He).
    apply list_elem_of_filter in He as [Hb _]. apply Is_true_true in Hb.
    pose proof (yields_building_length e Hb) as Hlen.
    pose proof (close_poly_length (to_pairs (points_of e))) as Hcl.
    unfold to_pairs in Hcl at 1. rewrite length_map in Hcl. lia.
Qed.

Lemma short_structures_discarded_witness :
  (parsed_buildings {| elements := [example_element] ++ short_structure :: [example_road] |}
   = parsed_buildings {| elements := [example_element] ++ [example_road] |}
   /\ collect ([example_element] ++ short_structure :: [example_road])
      = collect ([example_element] ++ [example_road]))
  /\ 3 <= length [ (1, 1); (1, 2); (2, 2); (1, 1) ]%float.
Proof.
  pose proof (short_structures_discarded
                [example_element] short_structure [example_road]
                [ {| lat := 1; lon := 1 |}; {| lat := 1; lon := 2 |} ]
                {[ "building" := "yes" ]}
                {| elements := [example_element] |}
                [ (1, 1); (1, 2); (2, 2); (1, 1) ]%float) as [Hd Hp].
  split.
  - destruct (Hd eq_refl eq_refl eq_refl) as (_ & Hb & Hc).
    + by eexists.
    + simpl. lia.
    + split; [exact Hb | exact (Hc eq_refl)].
  - apply Hp. apply list_elem_of_In. vm_compute. left. reflexivity.
Defined.

(** C4, as stated, fails: a way with geometry tagged as structure that has
    only two points adds no polygon to [_buildings]. *)
Lemma short_structure_adds_no_polygon :
  type short_structure = way
  /\ is_Some (geometry short_structure)
  /\ structure_tagged short_structure = true
  /\ ~ exists poly : Line, poly ∈ _buildings (collect [short_structure]).
Proof.
  split; [reflexivity|]. split; [by eexists|]. split; [reflexivity|].
  intros [poly Hin]. vm_compute in Hin. by apply elem_of_nil in Hin.
Qed.

(** C4, amended: the arrays built from a response are those built from the
    elements before an element, then what the element adds, then those
    built from the elements behind it.  A way with geometry and tags whose
    [highway] tag is truthy adds one polyline to [_roads] and nothing to
    [_buildings]; one whose [highway] tag is not truthy, whose [building]
    tag is truthy and whose geometry has more than two points adds one
    polygon to [_buildings] (closed, for the numbers of a JSON document) and
    nothing to [_roads]; no element adds to both. *)
Theorem partition_by_tag pre el post :
  collect (pre ++ el :: post)
  = {| _roads := _roads (collect pre) ++ _roads (contribution el)
                 ++ _roads (collect post);
       _buildings := _buildings (collect pre) ++ _buildings (contribution el)
                     ++ _buildings (collect post) |}
  /\ (way_with_geometry el = true -> roadway_tagged el = true ->
      contribution el
      = {| _roads := [to_pairs (points_of el)]; _buildings := [] |})
  /\ (way_with_geometry el = true -> roadway_tagged el = false ->
      structure_tagged el = true -> 2 < length (points_of el) ->
      contribution el
      = {| _roads := [];
           _buildings := [close_poly (to_pairs (points_of el))] |}
      /\ (json_element el = true ->
          closed (close_poly (to_pairs (points_of el))) = true))
  /\ (_roads (contribution el) = [] \/ _buildings (contribution el) = []).
Proof.
  split; [apply collect_insert|]. rewrite contribution_spec.
  unfold yields_building, yields_road. split; [|split].
  - by intros -> ->.
  - intros -> -> -> Hlen. apply Nat.ltb_lt in Hlen. rewrite Hlen. simpl.
    split; [reflexivity|]. intros Hj. unfold json_element in Hj.
    destruct (head (to_pairs (points_of el))) as [first|] eqn:Hh.
    + destruct (json_head_pair _ _ Hj Hh). by eapply close_poly_closed.
    + apply Nat.ltb_lt in Hlen.
      destruct (points_of el); simpl in *; [lia | discriminate].
  - destruct (way_with_geometry el && roadway_tagged el); [by right|].
    by left; case_match.
Qed.

Lemma partition_by_tag_witness :
  (way_with_geometry example_road = true /\ roadway_tagged example_road = true
   /\ contribution example_road
      = {| _roads := [ [ (1, 1); (1, 2) ]%float ]; _buildings := [] |})
  /\ (way_with_geometry example_element = true
      /\ roadway_tagged example_element = false
      /\ structure_tagged example_element = true
      /\ 2 < length (points_of example_element)
      /\ json_element example_element = true
      /\ contribution example_element
         = {| _roads := [];
              _buildings := [ [ (1, 1); (1, 2); (2, 2); (1, 1) ]%float ] |}
      /\ closed (close_poly (to_pairs (points_of example_element))) = true).
Proof.
  split.
  - split; [reflexivity|]. split; [reflexivity|].
    exact (proj1 (proj2 (partition_by_tag [] example_road []))
             eq_refl eq_refl).
  - assert (Hlen : 2 < length (points_of example_element)) by (simpl; lia).
    do 3 (split; [reflexivity|]). split; [exact Hlen|].
    split; [reflexivity|].
    destruct (proj1 (proj2 (proj2 (partition_by_tag [] example_element [])))
                eq_refl eq_refl eq_refl Hlen) as [Hc Hcl].
    split; [exact Hc | exact (Hcl eq_refl)].
Defined.

(** * Properties of the selection state *)

Import Selection.

Lemma play_snoc acts a : play (acts ++ [a]) = act (play acts) a.
Proof. unfold play. by rewrite fold_left_app. Qed.

(** The active slot is empty or holds the identifier of a point. *)
Lemma active_slot acts :
  activePoint (play acts) = None
  \/ exists p, p ∈ points /\ activePoint (play acts) = Some (id p).
Proof.
  induction acts as [|a acts IH] using rev_ind; [by left|].
  rewrite play_snoc. destruct a as [k| |v]; simpl; try exact IH.
  destruct (points !! k) as [p|] eqn:Hk; [|exact IH].
  right. exists p. split; [|reflexivity].
  by eapply list_elem_of_lookup_2.
Qed.

Ltac pick_point H :=
  apply list_elem_of_In in H; simpl in H;
  repeat (destruct H as [<- | H]; [|]); [..| destruct H].

(** C7: clicking a point with identifier [i] stores [i] in the active slot
    and opens the panel; Close shuts the panel and leaves the active slot
    (and the label switch) as it was, and so does every action other than a
    click on a marker; in every state the user can reach, two points that
    are both active are the same point. *)
Theorem single_slot_selection (s : State) (i : number) (a : Action)
    (acts : list Action) (p q : Point) :
  handlePointClick i s
  = {| panelOpen := true; activePoint := Some i; showLabels := showLabels s |}
  /\ close s
     = {| panelOpen := false; activePoint := activePoint s;
          showLabels := showLabels s |}
  /\ ((forall k, a <> ClickMarker k) -> activePoint (act s a) = activePoint s)
  /\ (p ∈ points -> q ∈ points ->
      active (play acts) p = true -> active (play acts) q = true -> p = q).
Proof.
  split; [reflexivity|]. split; [reflexivity|]. split.
  - intros Hne. destruct a as [k| |v]; [by destruct (Hne k)|reflexivity..].
  - intros Hp Hq. unfold active.
    destruct (active_slot acts) as [-> | (r & Hr & ->)]; [discriminate|].
    pick_point Hr; pick_point Hp; pick_point Hq; intros H1 H2;
      first [reflexivity | vm_compute in H1; discriminate
            | vm_compute in H2; discriminate].
Qed.

Lemma single_slot_selection_witness :
  (forall k, ClickClose <> ClickMarker k)
  /\ activePoint (act (play [ClickMarker 1]) ClickClose) = Some 2%float
  /\ garden ∈ points
  /\ active (play [ClickMarker 1; ClickClose]) garden = true
  /\ garden = garden.
Proof.
  pose proof (single_slot_selection (play [ClickMarker 1]) 2%float ClickClose
                [ClickMarker 1; ClickClose] garden garden)
    as (_ & _ & Hframe & Hone).
  assert (Hne : forall k, ClickClose <> ClickMarker k) by discriminate.
  assert (Hin : garden ∈ points).
  { apply list_elem_of_In. right. left. reflexivity. }
  assert (Hact : active (play [ClickMarker 1; ClickClose]) garden = true)
    by reflexivity.
  split; [exact Hne|]. split; [exact (Hframe Hne)|].
  split; [exact Hin|]. split; [exact Hact|].
  exact (Hone Hin Hin Hact Hact).
Defined.

(** * Properties of the fetch effect *)

Lemma run_snoc evs ev : run (evs ++ [ev]) = step (run evs) ev.
Proof. unfold run. by rewrite fold_left_app. Qed.

Lemma run_app evs1 evs2 : run (evs1 ++ evs2) = fold_left step evs2 (run evs1).
Proof. unfold run. by rewrite fold_left_app. Qed.

(** A cancelled run passes through [catch] and [finally] without a call to
    a setter. *)
Lemma throw_cancelled e h : throw true e h = h.
Proof. reflexivity. Qed.

Lemma resume_fetch_cancelled r h : snd (resume_fetch r true h) = h.
Proof. destruct r as [e|status]; simpl; [done|]. by destruct (ok status). Qed.

Lemma resume_body_cancelled r h : snd (resume_body r true h) = h.
Proof. by destruct r. Qed.

Lemma settle_cancelled w ev i e :
  target ev = Some i -> effects w !! i = Some e -> cancelled e = true ->
  hook (step w ev) = hook w.
Proof.
  intros Ht He Hc.
  destruct ev as [b| |j r|j r]; simpl in Ht; try discriminate;
    injection Ht as ->; simpl; rewrite He; destruct (phase e); try reflexivity;
    simpl; rewrite Hc.
  - apply resume_fetch_cancelled.
  - apply resume_body_cancelled.
Qed.

Lemma cleanup_length effs : length (cleanup effs) = length effs.
Proof. unfold cleanup. apply length_alter. Qed.

Lemma cleanup_lookup effs i e :
  effs !! i = Some e ->
  exists e', cleanup effs !! i = Some e'
    /\ (cancelled e = true \/ i = length effs - 1 -> cancelled e' = true).
Proof.
  intros He. unfold cleanup.
  destruct (decide (i = length effs - 1)) as [->|Hne].
  - rewrite list_lookup_alter_eq, He. simpl.
    exists (set_cancelled e). by split.
  - rewrite list_lookup_alter_ne by congruence. exists e.
    split; [exact He|]. by intros [?|?].
Qed.

(** The [cancelled] variable of a run is never reset. *)
Lemma step_cancelled w ev i e :
  effects w !! i = Some e -> cancelled e = true ->
  exists e', effects (step w ev) !! i = Some e' /\ cancelled e' = true.
Proof.
  intros He Hc.
  assert (Hrun : forall b, exists e',
             effects (run_effect b w) !! i = Some e' /\ cancelled e' = true).
  { intros b. destruct (cleanup_lookup _ _ _ He) as (e' & He' & Hc').
    exists e'. simpl. rewrite lookup_app_l
      by (rewrite cleanup_length; by eapply lookup_lt_Some).
    auto. }
  assert (Hset : forall j e0 res, effects w !! j = Some e0 -> exists e',
             effects (settle j e0 res w) !! i = Some e' /\ cancelled e' = true).
  { intros j e0 res Hj. simpl. destruct (decide (j = i)) as [->|Hne].
    - rewrite list_lookup_insert_eq by (by eapply lookup_lt_Some).
      exists (set_phase (fst res) e0). split; [done|].
      simpl. congruence.
    - rewrite list_lookup_insert_ne by done. eauto. }
  destruct ev as [b| |j r|j r]; simpl.
  - destruct (unmounted w); [eauto|].
    destruct (last (effects w)) as [l|]; [|apply Hrun].
    destruct (same_deps (deps l) b); [eauto | apply Hrun].
  - destruct (unmounted w); [eauto|]. simpl.
    destruct (cleanup_lookup _ _ _ He) as (e' & He' & Hc'). eauto.
  - destruct (effects w !! j) as [e0|] eqn:Hj; [|eauto].
    destruct (phase e0); eauto.
  - destruct (effects w !! j) as [e0|] eqn:Hj; [|eauto].
    destruct (phase e0); eauto.
Qed.

Lemma steps_cancelled evs : forall w i e,
  effects w !! i = Some e -> cancelled e = true ->
  exists e', effects (fold_left step evs w) !! i = Some e'
             /\ cancelled e' = true.
Proof.
  induction evs as [|ev evs IH]; intros w i e He Hc; simpl; [eauto|].
  destruct (step_cancelled w ev i e He Hc) as (e' & He' & Hc').
  by eapply IH.
Qed.

Lemma current_last w i :
  current w = Some i -> unmounted w = false /\ i = length (effects w) - 1.
Proof.
  unfold current. destruct (unmounted w); [discriminate|].
  destruct (effects w); [discriminate|]. by intros [= <-].
Qed.

Lemma cleanup_all_cancelled w i e :
  one_live_run w -> cleanup (effects w) !! i = Some e -> cancelled e = true.
Proof.
  intros Hinv He. unfold cleanup in He.
  destruct (decide (i = length (effects w) - 1)) as [->|Hne].
  - rewrite list_lookup_alter_eq in He.
    destruct (effects w !! _); simpl in He; [|discriminate].
    by injection He as <-.
  - rewrite list_lookup_alter_ne in He by congruence.
    destruct (cancelled e) eqn:Hc; [reflexivity|].
    destruct (current_last w i (Hinv i e He Hc)). contradiction.
Qed.

Lemma run_effect_one_live b w :
  unmounted w = false -> one_live_run w -> one_live_run (run_effect b w).
Proof.
  intros Hm Hinv i e He Hc. simpl in He.
  unfold current. simpl. rewrite Hm.
  apply lookup_app_Some in He as [He | [Hlen He]].
  - pose proof (cleanup_all_cancelled w i e Hinv He). congruence.
  - rewrite cleanup_length in *.
    assert (i = length (effects w)) as ->.
    { apply lookup_lt_Some in He. simpl in He. lia. }
    destruct (cleanup (effects w) ++ _) eqn:E.
    + by apply app_nil in E as [_ ?].
    + rewrite <- E, length_app, cleanup_length. simpl. f_equal. lia.
Qed.

Lemma settle_one_live j e0 res w :
  effects w !! j = Some e0 -> one_live_run w ->
  one_live_run (settle j e0 res w).
Proof.
  intros Hj Hinv i e He Hc. simpl in He.
  assert (Hcur : current (settle j e0 res w) = current w).
  { unfold current. simpl. rewrite length_insert.
    destruct (effects w) eqn:E; [by rewrite lookup_nil in Hj|].
    by destruct j. }
  rewrite Hcur. destruct (decide (j = i)) as [->|Hne].
  - rewrite list_lookup_insert_eq in He by (by eapply lookup_lt_Some).
    injection He as <-. by apply (Hinv i e0).
  - rewrite list_lookup_insert_ne in He by done. by apply (Hinv i e).
Qed.

Lemma step_one_live w ev : one_live_run w -> one_live_run (step w ev).
Proof.
  intros Hinv. destruct ev as [b| |j r|j r]; simpl.
  - destruct (unmounted w) eqn:Hm; [done|].
    destruct (last (effects w)) as [l|]; [|by apply run_effect_one_live].
    destruct (same_deps (deps l) b); [done | by apply run_effect_one_live].
  - destruct (unmounted w) eqn:Hm; [done|].
    intros i e He Hc. simpl in He.
    pose proof (cleanup_all_cancelled w i e Hinv He). congruence.
  - destruct (effects w !! j) as [e0|] eqn:Hj; [|done].
    destruct (phase e0); try done. by apply settle_one_live.
  - destruct (effects w !! j) as [e0|] eqn:Hj; [|done].
    destruct (phase e0); try done. by apply settle_one_live.
Qed.

Lemma run_one_live evs : one_live_run (run evs).
Proof.
  induction evs as [|ev evs IH] using rev_ind.
  - intros i e He. unfold run in He. simpl in He.
    by rewrite lookup_nil in He.
  - rewrite run_snoc. by apply step_one_live.
Qed.

(** A bounding-box change or a teardown cancels every run started so far. *)
Lemma supersedes_cancels w ev i :
  one_live_run w -> supersedes w ev = true -> i < length (effects w) ->
  exists e, effects (step w ev) !! i = Some e /\ cancelled e = true.
Proof.
  intros Hinv Hs Hi.
  destruct (lookup_lt_is_Some_2 (cleanup (effects w)) i) as [e He];
    [by rewrite cleanup_length|].
  pose proof (cleanup_all_cancelled w i e Hinv He) as Hc.
  exists e. split; [|exact Hc].
  assert (Hrun : forall b, effects (run_effect b w) !! i = Some e).
  { intros b. simpl. rewrite lookup_app_l by (by rewrite cleanup_length).
    exact He. }
  destruct ev as [b| |j r|j r]; simpl in *; try discriminate.
  - destruct (unmounted w); [discriminate|].
    destruct (last (effects w)) as [l|]; [|apply Hrun].
    destruct (same_deps (deps l) b); [discriminate | apply Hrun].
  - destruct (unmounted w); [discriminate|]. exact He.
Qed.

(** C5: once the bounding box has changed, or the component was torn down,
    a fetch started before that never reaches the hook's state: whenever
    it settles later, with whatever result, [roads], [buildings], [loading]
    and [error] stay as they are. *)
Theorem stale_fetch_never_applied evs1 ev evs2 settled i :
  i < length (effects (run evs1)) ->
  supersedes (run evs1) ev = true ->
  target settled = Some i ->
  hook (step (run (evs1 ++ ev :: evs2)) settled)
  = hook (run (evs1 ++ ev :: evs2)).
Proof.
  intros Hi Hs Ht. rewrite run_app. simpl.
  destruct (supersedes_cancels (run evs1) ev i (run_one_live evs1) Hs Hi)
    as (e & He & Hc).
  destruct (steps_cancelled evs2 _ i e He Hc) as (e' & He' & Hc').
  by eapply settle_cancelled.
Qed.

Lemma stale_fetch_never_applied_witness :
  0 < length (effects (run [Render bbox; FetchSettled 0 (Responded 200)]))
  /\ supersedes (run [Render bbox; FetchSettled 0 (Responded 200)])
       (Render other_bbox) = true
  /\ hook (step (run ([Render bbox; FetchSettled 0 (Responded 200)]
                      ++ Render other_bbox
                      :: [FetchSettled 1 (Responded 200)]))
             (BodySettled 0 (BodyParsed {| elements := [example_element] |})))
     = hook (run ([Render bbox; FetchSettled 0 (Responded 200)]
                  ++ Render other_bbox :: [FetchSettled 1 (Responded 200)])).
Proof.
  assert (Hlen : 0 < length (effects (run [Render bbox;
                                            FetchSettled 0 (Responded 200)])))
    by (vm_compute; lia).
  split; [exact Hlen|]. split; [reflexivity|].
  exact (stale_fetch_never_applied
           [Render bbox; FetchSettled 0 (Responded 200)] (Render other_bbox)
           [FetchSettled 1 (Responded 200)]
           (BodySettled 0 (BodyParsed {| elements := [example_element] |}))
           0 Hlen eq_refl eq_refl).
Defined.

(** The same response, settling for the run that is still current, is
    applied. *)
Example current_fetch_applied :
  hook (run [Render bbox; FetchSettled 0 (Responded 200);
             BodySettled 0 (BodyParsed {| elements := [example_element] |})])
  = {| roads := [];
       buildings := [ [ (1, 1); (1, 2); (2, 2); (1, 1) ]%float ];
       loading := false;
       error := None |}.
Proof. vm_compute. reflexivity. Qed.

(** C8: when the fetch of a run that is not cancelled fails -- [fetch]
    rejects, the response is not [ok], or [res.json()] rejects -- the error
    state takes the message of the thrown value (or the fixed text when it
    has none), [loading] becomes false, and [roads] and [buildings] keep
    what they held. *)
Theorem failure_keeps_geometry w ev i e thrown :
  effects w !! i = Some e -> cancelled e = false ->
  target ev = Some i -> failure (phase e) ev = Some thrown ->
  hook (step w ev)
  = {| roads := roads (hook w);
       buildings := buildings (hook w);
       loading := false;
       error := Some (error_text thrown) |}.
Proof.
  intros He Hc Ht Hf.
  destruct ev as [b| |j r|j r]; simpl in Ht; try discriminate;
    injection Ht as ->; simpl; rewrite He;
    destruct (phase e); simpl in Hf; try discriminate; simpl; rewrite Hc.
  - destruct r as [x|status]; simpl.
    + by injection Hf as ->.
    + destruct (ok status); [discriminate|]. by injection Hf as <-.
  - destruct r as [x|json]; [|discriminate]. by injection Hf as ->.
Qed.

Lemma failure_keeps_geometry_witness :
  hook (step (run [Render bbox; FetchSettled 0 (Responded 200);
                   BodySettled 0
                     (BodyParsed {| elements := [example_road; example_element] |});
                   Render other_bbox])
          (FetchSettled 1 (Responded 504)))
  = {| roads := [ [ (1, 1); (1, 2) ]%float ];
       buildings := [ [ (1, 1); (1, 2); (2, 2); (1, 1) ]%float ];
       loading := false;
       error := Some "Overpass error: 504" |}.
Proof.
  exact (failure_keeps_geometry
           (run [Render bbox; FetchSettled 0 (Responded 200);
                 BodySettled 0
                   (BodyParsed {| elements := [example_road; example_element] |});
                 Render other_bbox])
           (FetchSettled 1 (Responded 504)) 1
           {| deps := other_bbox; cancelled := false; phase := AwaitFetch |}
           (overpass_error 504) eq_refl eq_refl eq_refl eq_refl).
Defined.

(** * Further properties of the parsing loop *)

Lemma closed_close_poly (poly : Line) :
  closed poly = true -> close_poly poly = poly.
Proof.
  unfold closed, close_poly.
  destruct (head poly) as [first|], (last poly) as [lst|]; try done.
  rewrite differs_pair_eq. by intros ->.
Qed.

Lemma close_poly_cases (poly : Line) :
  close_poly poly = poly
  \/ exists first, head poly = Some first /\ close_poly poly = poly ++ [first].
Proof.
  unfold close_poly.
  destruct (head poly) as [first|] eqn:Hh; [|by left].
  destruct (last poly) as [lst|]; [|by left].
  destruct (differs first lst); [right; by exists first | by left].
Qed.

Lemma close_poly_elem (poly : Line) (pr : Pair) :
  pr ∈ close_poly poly -> pr ∈ poly.
Proof.
  destruct (close_poly_cases poly) as [-> | (first & Hh & ->)]; [done|].
  intros [H | H]%elem_of_app; [done|].
  apply list_elem_of_singleton in H as ->.
  destruct poly; [discriminate|]. injection Hh as ->. apply list_elem_of_here.
Qed.

(** X1: an outline whose ends are already equal is stored as it is, with no
    point added; and closing is idempotent: for an outline whose first pair
    holds no NaN, closing it a second time changes nothing. *)
Theorem close_poly_idempotent (poly : Line) :
  (closed poly = true -> close_poly poly = poly)
  /\ ((forall first, head poly = Some first ->
         json_number (fst first) = true /\ json_number (snd first) = true) ->
      close_poly (close_poly poly) = close_poly poly).
Proof.
  split; [apply closed_close_poly|].
  intros Hj. destruct (head poly) as [first|] eqn:Hh.
  - destruct (Hj first eq_refl) as [H1 H2].
    apply closed_close_poly. by eapply close_poly_closed.
  - by destruct poly.
Qed.

Lemma close_poly_idempotent_witness :
  closed [ (1, 1); (1, 2); (2, 2); (1, 1) ]%float = true
  /\ close_poly [ (1, 1); (1, 2); (2, 2); (1, 1) ]%float
     = [ (1, 1); (1, 2); (2, 2); (1, 1) ]%float
  /\ close_poly (close_poly [ (1, 1); (1, 2); (2, 2) ]%float)
     = close_poly [ (1, 1); (1, 2); (2, 2) ]%float.
Proof.
  split; [reflexivity|]. split.
  - exact (proj1 (close_poly_idempotent
                    [ (1, 1); (1, 2); (2, 2); (1, 1) ]%float) eq_refl).
  - apply (proj2 (close_poly_idempotent [ (1, 1); (1, 2); (2, 2) ]%float)).
    intros first [= <-]. split; reflexivity.
Defined.

(** X2: a way with geometry whose [highway] tag is not truthy, whose
    [building] tag is truthy and whose geometry has more than two points
    gives one polygon that starts with the points of the geometry, in their
    order, each as [[lat, lon]]; the only thing that can follow them is one
    more copy of the first pair. *)
Theorem building_points_preserved el (g : list LatLon)
    (t : gmap string string) :
  type el = way -> geometry el = Some g -> tags el = Some t ->
  truthy (t !! "highway") = false -> truthy (t !! "building") = true ->
  2 < length g ->
  exists poly : Line,
    contribution el = {| _roads := []; _buildings := [poly] |}
    /\ take (length g) poly = to_pairs g
    /\ (forall i, i < length g ->
          poly !! i = (fun p => (lat p, lon p)) <$> g !! i)
    /\ (poly = to_pairs g
        \/ exists p, head g = Some p /\ poly = to_pairs g ++ [(lat p, lon p)]).
Proof.
  intros Hty Hg Ht Hh Hb Hlen.
  exists (close_poly (to_pairs g)).
  assert (Hc : contribution el
               = {| _roads := []; _buildings := [close_poly (to_pairs g)] |}).
  { unfold contribution, visit. rewrite Hty, Hg, Ht. simpl. rewrite Hh, Hb.
    unfold to_pairs at 1. rewrite length_map.
    apply Nat.ltb_lt in Hlen. by rewrite Hlen. }
  split; [exact Hc|].
  assert (Hl : length (to_pairs g) = length g) by apply length_map.
  destruct (close_poly_cases (to_pairs g)) as [-> | (first & Hf & ->)].
  - split; [by rewrite <- Hl, firstn_all|].
    split; [intros i _; apply to_pairs_lookup | by left].
  - split; [by rewrite <- Hl, take_app_length|]. split.
    + intros i Hi. rewrite lookup_app_l by lia. apply to_pairs_lookup.
    + right. destruct g as [|p g]; [discriminate|].
      exists p. simpl in Hf. injection Hf as <-. by split.
Qed.

Lemma building_points_preserved_witness :
  exists poly : Line,
    contribution example_element = {| _roads := []; _buildings := [poly] |}
    /\ take 3 poly = [ (1, 1); (1, 2); (2, 2) ]%float.
Proof.
  destruct (building_points_preserved example_element
              [ {| lat := 1; lon := 1 |}; {| lat := 1; lon := 2 |};
                {| lat := 2; lon := 2 |} ]
              {[ "building" := "yes" ]}
              eq_refl eq_refl eq_refl eq_refl eq_refl)
    as (poly & Hc & Ht & _); [simpl; lia|].
  exists poly. split; [exact Hc | exact Ht].
Defined.

Lemma filtered_elem (f : OverpassElement -> bool) (h : OverpassElement -> Line)
    (els : list OverpassElement) (line : Line) :
  line ∈ map h (filter f els) ->
  exists el, el ∈ els /\ f el = true /\ line = h el.
Proof.
  intros Hin. apply list_elem_of_fmap in Hin as (el & -> & Hel).
  apply list_elem_of_filter in Hel as [Hf Hel]. apply Is_true_true in Hf.
  by exists el.
Qed.

Lemma to_pairs_elem (g : list LatLon) (pr : Pair) :
  pr ∈ to_pairs g -> exists p, p ∈ g /\ pr = (lat p, lon p).
Proof.
  unfold to_pairs. intros Hin.
  apply list_elem_of_fmap in Hin as (p & -> & Hp). by exists p.
Qed.

(** X3: the loop invents no coordinate: every pair of every polyline of the
    roads output and of every polygon of the building output is
    [[lat, lon]] of a point in the geometry of a fetched way. *)
Theorem outputs_from_input json (line : Line) (pr : Pair) :
  line ∈ parsed_roads json \/ line ∈ parsed_buildings json ->
  pr ∈ line ->
  exists el p, el ∈ elements json /\ type el = way
    /\ p ∈ points_of el /\ pr = (lat p, lon p).
Proof.
  intros Hline Hpr.
  assert (Hway : forall el, way_with_geometry el = true -> type el = way).
  { intros el H. unfold way_with_geometry in H.
    apply andb_prop in H as [H _]. apply andb_prop in H as [H _].
    by destruct (type el). }
  destruct Hline as [Hr | Hb].
  - unfold parsed_roads in Hr. rewrite roads_filter in Hr.
    apply filtered_elem in Hr as (el & Hel & Hy & ->).
    apply to_pairs_elem in Hpr as (p & Hp & ->).
    exists el, p. repeat split; try done.
    apply Hway. unfold yields_road in Hy. by apply andb_prop in Hy as [? _].
  - unfold parsed_buildings, slice0 in Hb. apply take_elem in Hb.
    rewrite buildings_filter in Hb.
    apply filtered_elem in Hb as (el & Hel & Hy & ->).
    apply close_poly_elem, to_pairs_elem in Hpr as (p & Hp & ->).
    exists el, p. repeat split; try done.
    apply Hway. by destruct (yields_building_way el Hy) as [? _].
Qed.

Lemma outputs_from_input_witness :
  exists el p, el ∈ [example_road; example_element] /\ type el = way
    /\ p ∈ points_of el /\ (2, 2)%float = (lat p, lon p).
Proof.
  apply (outputs_from_input {| elements := [example_road; example_element] |}
           [ (1, 1); (1, 2); (2, 2); (1, 1) ]%float (2, 2)%float).
  - right. apply list_elem_of_In. vm_compute. left. reflexivity.
  - apply list_elem_of_In. right. right. left. reflexivity.
Defined.

(** X4: what an element adds depends only on its type, its geometry,
    whether it has tags, and the truthiness of its [highway] and [building]
    tags; its [id] and every other tag are ignored. *)
Theorem contribution_ignores_rest el el' :
  type el = type el' -> geometry el = geometry el' ->
  (is_Some (tags el) <-> is_Some (tags el')) ->
  roadway_tagged el = roadway_tagged el' ->
  structure_tagged el = structure_tagged el' ->
  contribution el = contribution el'.
Proof.
  intros Hty Hg Ht Hr Hs. rewrite !contribution_spec.
  unfold yields_road, yields_building, way_with_geometry, points_of.
  rewrite Hty, Hg, Hr, Hs.
  by rewrite (bool_decide_ext _ _ Ht).
Qed.

Lemma contribution_ignores_rest_witness :
  contribution named_house = contribution example_element.
Proof.
  apply contribution_ignores_rest; try reflexivity.
  split; intros _; by eexists.
Defined.

(** X5: parsing a response is parsing its parts: the roads of two element
    lists put together are the roads of the first followed by the roads of
    the second, and the buildings are the first 4000 of the polygons of the
    first followed by those of the second.  So once the elements read so far
    have given 4000 polygons, nothing behind them reaches the building
    output. *)
Theorem parse_of_concatenation (a b : list OverpassElement) :
  parsed_roads {| elements := a ++ b |}
  = parsed_roads {| elements := a |} ++ parsed_roads {| elements := b |}
  /\ parsed_buildings {| elements := a ++ b |}
     = take 4000 (_buildings (collect a) ++ _buildings (collect b))
  /\ (4000 <= length (_buildings (collect a)) ->
      parsed_buildings {| elements := a ++ b |}
      = parsed_buildings {| elements := a |}).
Proof.
  unfold parsed_roads, parsed_buildings, slice0, building_cap. simpl.
  rewrite collect_app. simpl. split; [done|]. split; [done|].
  intros Hlen. by rewrite take_app_le.
Qed.

Lemma parse_of_concatenation_witness :
  4000 <= length (_buildings (collect (replicate 4000 example_element)))
  /\ parsed_buildings
       {| elements := replicate 4000 example_element ++ [example_element] |}
     = parsed_buildings {| elements := replicate 4000 example_element |}.
Proof.
  assert (H : 4000 <= length (_buildings
                                (collect (replicate 4000 example_element)))).
  { apply Nat.leb_le. vm_compute. reflexivity. }
  split; [exact H|].
  exact (proj2 (proj2 (parse_of_concatenation
                         (replicate 4000 example_element) [example_element]))
           H).
Defined.

(** * Further properties of the fetch effect *)

Lemma live_is_last w i e :
  one_live_run w -> effects w !! i = Some e -> cancelled e = false ->
  unmounted w = false /\ i = length (effects w) - 1.
Proof. intros Hinv He Hc. apply current_last. by eapply Hinv. Qed.

(** X6: at any time at most one run of the effect has its [cancelled]
    variable still false: the one started last, and none once the component
    is torn down. *)
Theorem at_most_one_live_run evs i j e e' :
  effects (run evs) !! i = Some e -> cancelled e = false ->
  effects (run evs) !! j = Some e' -> cancelled e' = false ->
  i = j /\ i = length (effects (run evs)) - 1
  /\ unmounted (run evs) = false.
Proof.
  intros Hi Hc Hj Hc'.
  destruct (live_is_last _ i e (run_one_live evs) Hi Hc) as [Hm ->].
  destruct (live_is_last _ j e' (run_one_live evs) Hj Hc') as [_ ->].
  done.
Qed.

Lemma at_most_one_live_run_witness :
  effects (run [Render bbox; Render other_bbox]) !! 1
  = Some {| deps := other_bbox; cancelled := false; phase := AwaitFetch |}
  /\ 1 = length (effects (run [Render bbox; Render other_bbox])) - 1
  /\ unmounted (run [Render bbox; Render other_bbox]) = false.
Proof.
  split; [reflexivity|].
  exact (proj2 (at_most_one_live_run [Render bbox; Render other_bbox] 1 1
                  {| deps := other_bbox; cancelled := false;
                     phase := AwaitFetch |}
                  {| deps := other_bbox; cancelled := false;
                     phase := AwaitFetch |}
                  eq_refl eq_refl eq_refl eq_refl)).
Defined.





Lemma step_error_loading w ev :
  (error (hook w) <> None -> loading (hook w) = false) ->
  error (hook (step w ev)) <> None -> loading (hook (step w ev)) = false.
Proof.
  intros H. destruct ev as [b| |j r|j r]; simpl.
  - destruct (unmounted w); [done|].
    destruct (last (effects w)) as [l|]; [|by simpl].
    by destruct (same_deps (deps l) b).
  - by destruct (unmounted w).
  - destruct (effects w !! j) as [e|]; [|done].
    destruct (phase e); try done. simpl.
    destruct (cancelled e); [by rewrite resume_fetch_cancelled|].
    destruct r as [x|status]; simpl; [done|]. by destruct (ok status).
  - destruct (effects w !! j) as [e|]; [|done].
    destruct (phase e); try done. simpl.
    destruct (cancelled e); [by rewrite resume_body_cancelled|].
    by destruct r.
Qed.

Lemma run_effect_loading_tracks b w :
  one_live_run w -> loading_tracks (run_effect b w).
Proof.
  intros Hinv i e He Hc. simpl in He.
  apply lookup_app_Some in He as [He | [_ He]].
  - pose proof (cleanup_all_cancelled w i e Hinv He). congruence.
  - destruct (i - length (cleanup (effects w))) as [|n]; simpl in He;
      [|by rewrite lookup_nil in He].
    by injection He as <-.
Qed.

Lemma settle_loading_tracks j e0 res w :
  one_live_run w -> loading_tracks w -> effects w !! j = Some e0 ->
  (cancelled e0 = true -> snd res = hook w) ->
  (cancelled e0 = false ->
   match fst res with
   | Finished => loading (snd res) = false
   | _ => loading (snd res) = true /\ error (snd res) = None
   end) ->
  loading_tracks (settle j e0 res w).
Proof.
  intros Hinv Hlt Hj Hcan Hlive i e He Hc. simpl in He. simpl hook.
  destruct (decide (j = i)) as [->|Hne].
  - rewrite list_lookup_insert_eq in He by (by eapply lookup_lt_Some).
    injection He as <-. simpl in *. by apply Hlive.
  - rewrite list_lookup_insert_ne in He by done.
    destruct (cancelled e0) eqn:Hc0.
    + rewrite Hcan by done. by apply (Hlt i e).
    + destruct (live_is_last w i e Hinv He Hc) as [_ ->].
      destruct (live_is_last w j e0 Hinv Hj Hc0) as [_ ->]. done.
Qed.

Lemma step_loading_tracks w ev :
  one_live_run w -> loading_tracks w -> loading_tracks (step w ev).
Proof.
  intros Hinv Hlt. destruct ev as [b| |j r|j r]; simpl.
  - destruct (unmounted w); [done|].
    destruct (last (effects w)) as [l|]; [|by apply run_effect_loading_tracks].
    destruct (same_deps (deps l) b); [done|].
    by apply run_effect_loading_tracks.
  - destruct (unmounted w); [done|]. intros i e He Hc. simpl in He.
    pose proof (cleanup_all_cancelled w i e Hinv He). congruence.
  - destruct (effects w !! j) as [e0|] eqn:Hj; [|done].
    destruct (phase e0) eqn:Hp; try done.
    apply settle_loading_tracks; try done.
    + intros ->. apply resume_fetch_cancelled.
    + intros Hc. rewrite Hc. specialize (Hlt j e0 Hj Hc). rewrite Hp in Hlt.
      destruct r as [x|status]; simpl; [done|]. by destruct (ok status).
  - destruct (effects w !! j) as [e0|] eqn:Hj; [|done].
    destruct (phase e0) eqn:Hp; try done.
    apply settle_loading_tracks; try done.
    + intros ->. apply resume_body_cancelled.
    + intros Hc. rewrite Hc. by destruct r.
Qed.

Lemma run_loading_tracks evs : loading_tracks (run evs).
Proof.
  induction evs as [|ev evs IH] using rev_ind.
  - intros i e He. unfold run in He. simpl in He. by rewrite lookup_nil in He.
  - rewrite run_snoc. apply step_loading_tracks; [apply run_one_live | done].
Qed.

Lemma run_error_loading evs :
  error (hook (run evs)) <> None -> loading (hook (run evs)) = false.
Proof.
  induction evs as [|ev evs IH] using rev_ind; [done|].
  rewrite run_snoc. by apply step_error_loading.
Qed.

(** X8: the hook never reports an error while it reports loading; and as
    long as a run is not cancelled, [loading] is true exactly while that run
    is suspended in one of its two [await]s, during which [error] is null. *)
Theorem loading_tracks_current_fetch evs i e :
  (error (hook (run evs)) <> None -> loading (hook (run evs)) = false)
  /\ (effects (run evs) !! i = Some e -> cancelled e = false ->
      (loading (hook (run evs)) = true <-> phase e <> Finished)
      /\ (phase e <> Finished -> error (hook (run evs)) = None)).
Proof.
  split; [apply run_error_loading|]. intros He Hc.
  pose proof (run_loading_tracks evs i e He Hc) as H.
  destruct (phase e).
  - destruct H as [-> ->]. by split.
  - destruct H as [-> ->]. by split.
  - rewrite H. split; [split|]; congruence.
Qed.

Lemma loading_tracks_current_fetch_witness :
  effects (run [Render bbox; FetchSettled 0 (Responded 200)]) !! 0
  = Some {| deps := bbox; cancelled := false; phase := AwaitBody |}
  /\ (loading (hook (run [Render bbox; FetchSettled 0 (Responded 200)])) = true
      <-> AwaitBody <> Finished)
  /\ (error (hook (run [Render bbox; FetchSettled 0 (Responded 504)])) <> None
      /\ loading (hook (run [Render bbox; FetchSettled 0 (Responded 504)]))
         = false).
Proof.
  split; [reflexivity|]. split.
  - exact (proj1 (proj2 (loading_tracks_current_fetch
                           [Render bbox; FetchSettled 0 (Responded 200)] 0
                           {| deps := bbox; cancelled := false;
                              phase := AwaitBody |})
                    eq_refl eq_refl)).
  - assert (H : error (hook (run [Render bbox;
                                  FetchSettled 0 (Responded 504)])) <> None)
      by discriminate.
    split; [exact H|].
    exact (proj1 (loading_tracks_current_fetch
                    [Render bbox; FetchSettled 0 (Responded 504)] 0
                    {| deps := bbox; cancelled := false; phase := Finished |})
             H).
Defined.



(** X10: [roads] and [buildings] change at one place only: an event either
    leaves both as they are, or it is the parsed body arriving for a run
    that is not cancelled and awaits it, and then they become the parse of
    that body.  A bounding-box change, a failure or a teardown keeps the
    geometry that is shown. *)
Theorem geometry_changes_only_on_success w ev :
  (roads (hook (step w ev)) = roads (hook w)
   /\ buildings (hook (step w ev)) = buildings (hook w))
  \/ exists i e json,
       ev = BodySettled i (BodyParsed json)
       /\ effects w !! i = Some e /\ cancelled e = false
       /\ phase e = AwaitBody
       /\ roads (hook (step w ev)) = parsed_roads json
       /\ buildings (hook (step w ev)) = parsed_buildings json.
Proof.
  destruct ev as [b| |j r|j r]; simpl.
  - left. destruct (unmounted w); [done|].
    destruct (last (effects w)) as [l|]; [|done].
    by destruct (same_deps (deps l) b).
  - left. by destruct (unmounted w).
  - left. destruct (effects w !! j) as [e|]; [|done].
    destruct (phase e); try done. simpl.
    destruct (cancelled e); [by rewrite resume_fetch_cancelled|].
    destruct r as [x|status]; simpl; [done|]. by destruct (ok status).
  - destruct (effects w !! j) as [e|] eqn:Hj; [|by left].
    destruct (phase e) eqn:Hp; try by left.
    destruct (cancelled e) eqn:Hc; simpl.
    + left. by rewrite resume_body_cancelled.
    + destruct r as [x|json]; [by left|].
      right. exists j, e, json. by repeat split.
Qed.

(** * Further properties of the selection state *)

Import View.

(** An open panel has a point to show. *)
Lemma open_panel_has_point acts :
  panelOpen (play acts) = true ->
  exists p, p ∈ points /\ activePoint (play acts) = Some (id p).
Proof.
  induction acts as [|a acts IH] using rev_ind; [discriminate|].
  rewrite play_snoc. destruct a as [k| |v]; simpl; try done.
  destruct (points !! k) as [p|] eqn:Hk; [|exact IH].
  intros _. exists p. split; [|reflexivity].
  by eapply list_elem_of_lookup_2.
Qed.

(** X11: whenever the side panel is rendered, the lookup
    [points.find((p) => p.id === activePoint)] behind the non-null assertion
    finds a point, and it is the point that is marked active. *)
Theorem panel_point_defined acts :
  panel_shown (play acts) = true ->
  exists p, panel_point (play acts) = Some p /\ p ∈ points
            /\ active (play acts) p = true.
Proof.
  intros Hs. unfold panel_shown in Hs. apply andb_prop in Hs as [Ho _].
  destruct (open_panel_has_point acts Ho) as (r & Hr & Ha).
  exists r. unfold panel_point, is_active_id, active. rewrite Ha.
  split; [|split; [exact Hr|]]; pick_point Hr; reflexivity.
Qed.

Lemma panel_point_defined_witness :
  panel_shown (play [ClickMarker 1; Toggle true]) = true
  /\ exists p, panel_point (play [ClickMarker 1; Toggle true]) = Some p
               /\ p ∈ points
               /\ active (play [ClickMarker 1; Toggle true]) p = true.
Proof.
  split; [reflexivity|].
  exact (panel_point_defined [ClickMarker 1; Toggle true] eq_refl).
Defined.

(** X12: the map is narrowed exactly when the side panel is rendered: the
    width follows [panelOpen] alone, the panel also needs an active point,
    and in every state the user can reach the two agree. *)
Theorem map_narrowed_iff_panel acts :
  panel_shown (play acts) = panelOpen (play acts)
  /\ (mapWidth (play acts) = "calc(100% - 360px)"
      <-> panel_shown (play acts) = true)
  /\ (mapWidth (play acts) = "100%" <-> panel_shown (play acts) = false).
Proof.
  assert (Hs : panel_shown (play acts) = panelOpen (play acts)).
  { unfold panel_shown. destruct (panelOpen (play acts)) eqn:Ho; [|done].
    destruct (open_panel_has_point acts Ho) as (r & _ & ->). done. }
  split; [exact Hs|]. rewrite Hs. unfold mapWidth.
  destruct (panelOpen (play acts)); split; split; intros H;
    first [reflexivity | discriminate | vm_compute in H; discriminate].
Qed.

(** X13: after a click on a marker, the point of that marker, and no other,
    is active, the panel is rendered and shows that point, whatever was
    selected before. *)
Theorem clicked_point_is_active s k p q :
  points !! k = Some p -> q ∈ points ->
  (active (act s (ClickMarker k)) q = true <-> q = p)
  /\ panel_shown (act s (ClickMarker k)) = true
  /\ panel_point (act s (ClickMarker k)) = Some p.
Proof.
  intros Hk Hq. simpl. rewrite Hk.
  unfold panel_shown, panel_point, is_active_id, active. simpl.
  destruct k as [|[|[|k]]]; simpl in Hk; try discriminate;
    injection Hk as <-; (split; [|split; reflexivity]);
    pick_point Hq; split; intros H;
    first [reflexivity | discriminate | vm_compute in H; discriminate].
Qed.

Lemma clicked_point_is_active_witness :
  points !! 1 = Some garden /\ garden ∈ points
  /\ (active (act (play [ClickMarker 0; ClickClose]) (ClickMarker 1)) garden
      = true <-> garden = garden)
  /\ panel_point (act (play [ClickMarker 0; ClickClose]) (ClickMarker 1))
     = Some garden.
Proof.
  assert (Hin : garden ∈ points).
  { apply list_elem_of_In. right. left. reflexivity. }
  split; [reflexivity|]. split; [exact Hin|].
  destruct (clicked_point_is_active (play [ClickMarker 0; ClickClose])
              1 garden garden eq_refl Hin) as (Ha & _ & Hp).
  split; [exact Ha | exact Hp].
Defined.

Lemma play_cons a acts s :
  fold_left act (a :: acts) s = fold_left act acts (act s a).
Proof. reflexivity. Qed.

(** X14: the label switch and the selection do not interfere: the panel and
    the active point are what the clicks alone would give, and the switch is
    what the toggles alone would give -- the value of the last toggle, or off
    when there was none. *)
Theorem labels_independent acts :
  panelOpen (play acts)
  = panelOpen (play (List.filter (fun a => negb (is_toggle a)) acts))
  /\ activePoint (play acts)
     = activePoint (play (List.filter (fun a => negb (is_toggle a)) acts))
  /\ showLabels (play acts)
     = showLabels (play (List.filter is_toggle acts))
  /\ showLabels (play acts)
     = match last (List.filter is_toggle acts) with
       | Some (Toggle v) => v
       | _ => false
       end.
Proof.
  induction acts as [|a acts (IH1 & IH2 & IH3 & IH4)] using rev_ind;
    [done|].
  rewrite !List.filter_app, play_snoc. simpl.
  destruct a as [k| |v]; simpl; rewrite ?app_nil_r, ?play_snoc, ?last_snoc;
    simpl; try done.
  destruct (points !! k); simpl; done.
Qed.

(** * Properties of [InvalidateOnToggle] *)

Lemma resize_run_snoc evs ev :
  Invalidate.run (evs ++ [ev]) = Invalidate.step (Invalidate.run evs) ev.
Proof. unfold Invalidate.run. by rewrite fold_left_app. Qed.

Lemma resize_run_app evs1 evs2 :
  Invalidate.run (evs1 ++ evs2)
  = fold_left Invalidate.step evs2 (Invalidate.run evs1).
Proof. unfold Invalidate.run. by rewrite fold_left_app. Qed.

Lemma resize_cleanup_length ts :
  length (Invalidate.cleanup ts) = length ts.
Proof. unfold Invalidate.cleanup. apply length_alter. Qed.

Lemma clearTimeout_not_pending x :
  Invalidate.clearTimeout x <> Invalidate.Pending.
Proof. by destruct x. Qed.

Lemma resize_cleanup_none_pending v t :
  Invalidate.one_pending v ->
  Invalidate.cleanup (Invalidate.timers v) !! t <> Some Invalidate.Pending.
Proof.
  intros Hinv He. unfold Invalidate.cleanup in He.
  destruct (decide (t = length (Invalidate.timers v) - 1)) as [->|Hne].
  - rewrite list_lookup_alter_eq in He.
    destruct (Invalidate.timers v !! _) as [x|]; simpl in He; [|done].
    injection He as He. by apply clearTimeout_not_pending in He.
  - rewrite list_lookup_alter_ne in He by congruence.
    destruct (Hinv t He). contradiction.
Qed.

Lemma resize_run_effect_one_pending o v :
  Invalidate.unmounted v = false -> Invalidate.one_pending v ->
  Invalidate.one_pending (Invalidate.run_effect o v).
Proof.
  intros Hm Hinv t He. simpl in *. split; [exact Hm|].
  apply lookup_app_Some in He as [He | [Hlen He]].
  - by apply resize_cleanup_none_pending in He.
  - rewrite resize_cleanup_length in *. rewrite length_app.
    apply lookup_lt_Some in He. rewrite resize_cleanup_length. simpl in *. lia.
Qed.

Lemma resize_step_one_pending v ev :
  Invalidate.one_pending v -> Invalidate.one_pending (Invalidate.step v ev).
Proof.
  intros Hinv. destruct ev as [o| |t0]; simpl.
  - destruct (Invalidate.unmounted v) eqn:Hm; [done|].
    destruct (Invalidate.open v) as [o'|];
      [|by apply resize_run_effect_one_pending].
    destruct (Bool.eqb o' o); [done|].
    by apply resize_run_effect_one_pending.
  - destruct (Invalidate.unmounted v) eqn:Hm; [done|].
    intros t He. simpl in He. by apply resize_cleanup_none_pending in He.
  - destruct (Invalidate.timers v !! t0) as [[| |]|] eqn:H0; try done.
    intros t He. simpl in *. rewrite length_insert.
    destruct (decide (t0 = t)) as [->|Hne].
    + rewrite list_lookup_insert_eq in He by (by eapply lookup_lt_Some).
      discriminate.
    + rewrite list_lookup_insert_ne in He by done. by apply Hinv.
Qed.

Lemma resize_run_one_pending evs : Invalidate.one_pending (Invalidate.run evs).
Proof.
  induction evs as [|ev evs IH] using rev_ind.
  - intros t He. unfold Invalidate.run in He. simpl in He.
    by rewrite lookup_nil in He.
  - rewrite resize_run_snoc. by apply resize_step_one_pending.
Qed.

(** X15: at most one resize is ever pending: a timer that has not fired and
    was not cleared is the one set by the last run of the effect, and the
    component is still mounted.  Toggling the panel again before the delay
    has passed therefore replaces the pending resize instead of adding one. *)
Theorem one_pending_resize evs t t' :
  Invalidate.timers (Invalidate.run evs) !! t = Some Invalidate.Pending ->
  Invalidate.timers (Invalidate.run evs) !! t' = Some Invalidate.Pending ->
  t = t' /\ t = length (Invalidate.timers (Invalidate.run evs)) - 1
  /\ Invalidate.unmounted (Invalidate.run evs) = false.
Proof.
  intros Ht Ht'.
  destruct (resize_run_one_pending evs t Ht) as [Hm ->].
  destruct (resize_run_one_pending evs t' Ht') as [_ ->]. done.
Qed.

Lemma one_pending_resize_witness :
  Invalidate.timers
    (Invalidate.run [Invalidate.Render false; Invalidate.Render true;
                     Invalidate.Render false]) !! 2
  = Some Invalidate.Pending
  /\ Invalidate.timers
       (Invalidate.run [Invalidate.Render false; Invalidate.Render true;
                        Invalidate.Render false])
     = [Invalidate.Cleared; Invalidate.Cleared; Invalidate.Pending]
  /\ Invalidate.unmounted
       (Invalidate.run [Invalidate.Render false; Invalidate.Render true;
                        Invalidate.Render false]) = false.
Proof.
  split; [reflexivity|]. split; [reflexivity|].
  exact (proj2 (proj2 (one_pending_resize
                         [Invalidate.Render false; Invalidate.Render true;
                          Invalidate.Render false] 2 2 eq_refl eq_refl))).
Defined.

Lemma fired_count_alter ts n :
  length (List.filter Invalidate.is_fired (alter Invalidate.clearTimeout n ts))
  = length (List.filter Invalidate.is_fired ts).
Proof.
  revert n. induction ts as [|x ts IH]; intros [|n]; simpl; try done.
  - by destruct x.
  - specialize (IH n). unfold alter in IH.
    destruct (Invalidate.is_fired x); simpl; by rewrite IH.
Qed.

Lemma fired_count_insert ts t :
  ts !! t = Some Invalidate.Pending ->
  length (List.filter Invalidate.is_fired (<[ t := Invalidate.Fired ]> ts))
  = S (length (List.filter Invalidate.is_fired ts)).
Proof.
  revert t. induction ts as [|x ts IH]; intros [|t] H; simpl in *;
    try discriminate.
  - by injection H as ->.
  - specialize (IH t H).
    destruct (Invalidate.is_fired x); simpl; by rewrite IH.
Qed.

Lemma resize_step_calls v ev :
  Invalidate.calls_are_fired v ->
  Invalidate.calls_are_fired (Invalidate.step v ev).
Proof.
  unfold Invalidate.calls_are_fired. intros Hinv.
  assert (Hrun : forall o,
    Invalidate.invalidateSize_calls (Invalidate.run_effect o v)
    = length (List.filter Invalidate.is_fired
                (Invalidate.timers (Invalidate.run_effect o v)))).
  { intros o. simpl. rewrite List.filter_app, length_app. simpl.
    unfold Invalidate.cleanup. rewrite fired_count_alter. lia. }
  destruct ev as [o| |t0]; simpl.
  - destruct (Invalidate.unmounted v); [done|].
    destruct (Invalidate.open v) as [o'|]; [|apply Hrun].
    destruct (Bool.eqb o' o); [done | apply Hrun].
  - destruct (Invalidate.unmounted v); [done|]. simpl.
    unfold Invalidate.cleanup. by rewrite fired_count_alter.
  - destruct (Invalidate.timers v !! t0) as [[| |]|] eqn:H0; try done.
    simpl. rewrite fired_count_insert by done. by rewrite Hinv.
Qed.

Lemma resize_run_calls evs : Invalidate.calls_are_fired (Invalidate.run evs).
Proof.
  induction evs as [|ev evs IH] using rev_ind; [done|].
  rewrite resize_run_snoc. by apply resize_step_calls.
Qed.

Lemma resize_timers_renders evs :
  length (Invalidate.timers (Invalidate.run evs))
  <= length (List.filter
               (fun ev => match ev with Invalidate.Render _ => true
                                      | _ => false end) evs).
Proof.
  induction evs as [|ev evs IH] using rev_ind; [done|].
  rewrite resize_run_snoc, List.filter_app, length_app.
  destruct ev as [o| |t0]; simpl.
  - destruct (Invalidate.unmounted _); [lia|].
    destruct (Invalidate.open _) as [o'|].
    + destruct (Bool.eqb o' o); [lia|]. simpl.
      rewrite length_app, resize_cleanup_length. simpl. lia.
    + simpl. rewrite length_app, resize_cleanup_length. simpl. lia.
  - destruct (Invalidate.unmounted _); simpl;
      rewrite ?resize_cleanup_length; lia.
  - destruct (Invalidate.timers _ !! t0) as [[| |]|]; simpl;
      rewrite ?length_insert; lia.
Qed.

(** X16: [map.invalidateSize()] is called once for every timer that has
    fired, so at most once for every run of the effect, and the effect runs
    at most once for every render. *)
Theorem resize_calls_bounded evs :
  Invalidate.invalidateSize_calls (Invalidate.run evs)
  = length (List.filter Invalidate.is_fired
              (Invalidate.timers (Invalidate.run evs)))
  /\ Invalidate.invalidateSize_calls (Invalidate.run evs)
     <= length (Invalidate.timers (Invalidate.run evs))
  /\ length (Invalidate.timers (Invalidate.run evs))
     <= length (List.filter
                  (fun ev => match ev with Invalidate.Render _ => true
                                         | _ => false end) evs).
Proof.
  pose proof (resize_run_calls evs) as Hc.
  unfold Invalidate.calls_are_fired in Hc.
  split; [exact Hc|]. split; [|apply resize_timers_renders].
  rewrite Hc. apply List.filter_length_le.
Qed.

Lemma resize_settled_step v ev t x :
  Invalidate.timers v !! t = Some x -> x <> Invalidate.Pending ->
  exists x', Invalidate.timers (Invalidate.step v ev) !! t = Some x'
             /\ x' <> Invalidate.Pending.
Proof.
  intros Ht Hx.
  assert (Hclean : exists x',
             Invalidate.cleanup (Invalidate.timers v) !! t = Some x'
             /\ x' <> Invalidate.Pending).
  { unfold Invalidate.cleanup.
    destruct (decide (t = length (Invalidate.timers v) - 1)) as [->|Hne].
    - rewrite list_lookup_alter_eq, Ht. simpl. eexists. split; [done|].
      apply clearTimeout_not_pending.
    - rewrite list_lookup_alter_ne by congruence. eauto. }
  assert (Hrun : forall o, exists x',
             Invalidate.timers (Invalidate.run_effect o v) !! t = Some x'
             /\ x' <> Invalidate.Pending).
  { intros o. simpl. rewrite lookup_app_l
      by (rewrite resize_cleanup_length; by eapply lookup_lt_Some).
    exact Hclean. }
  destruct ev as [o| |t0]; simpl.
  - destruct (Invalidate.unmounted v); [eauto|].
    destruct (Invalidate.open v) as [o'|]; [|apply Hrun].
    destruct (Bool.eqb o' o); [eauto | apply Hrun].
  - destruct (Invalidate.unmounted v); [eauto|]. exact Hclean.
  - destruct (Invalidate.timers v !! t0) as [[| |]|] eqn:H0; eauto.
    simpl. destruct (decide (t0 = t)) as [->|Hne].
    + rewrite list_lookup_insert_eq by (by eapply lookup_lt_Some).
      by eexists.
    + rewrite list_lookup_insert_ne by done. eauto.
Qed.

Lemma resize_settled_steps evs : forall v t x,
  Invalidate.timers v !! t = Some x -> x <> Invalidate.Pending ->
  exists x', Invalidate.timers (fold_left Invalidate.step evs v) !! t = Some x'
             /\ x' <> Invalidate.Pending.
Proof.
  induction evs as [|ev evs IH]; intros v t x Ht Hx; simpl; [eauto|].
  destruct (resize_settled_step v ev t x Ht Hx) as (x' & Ht' & Hx').
  by eapply IH.
Qed.

Lemma resize_supersedes_clears v ev t :
  Invalidate.one_pending v -> Invalidate.supersedes v ev = true ->
  t < length (Invalidate.timers v) ->
  exists x, Invalidate.timers (Invalidate.step v ev) !! t = Some x
            /\ x <> Invalidate.Pending.
Proof.
  intros Hinv Hs Ht.
  destruct (lookup_lt_is_Some_2 (Invalidate.cleanup (Invalidate.timers v)) t)
    as [x Hx]; [by rewrite resize_cleanup_length|].
  assert (Hnp : x <> Invalidate.Pending).
  { intros ->. by apply (resize_cleanup_none_pending v t Hinv). }
  exists x. split; [|exact Hnp].
  assert (Hrun : forall o,
             Invalidate.timers (Invalidate.run_effect o v) !! t = Some x).
  { intros o. simpl.
    by rewrite lookup_app_l by (by rewrite resize_cleanup_length). }
  destruct ev as [o| |t0]; simpl in *; try discriminate.
  - destruct (Invalidate.unmounted v); [discriminate|].
    destruct (Invalidate.open v) as [o'|]; [|apply (Hrun o)].
    destruct (Bool.eqb o' o); [discriminate | apply (Hrun o)].
  - destruct (Invalidate.unmounted v); [discriminate|]. exact Hx.
Qed.

(** X17: a resize that was superseded never happens: once the panel was
    toggled again, or the map was torn down, the timer of an earlier run
    does nothing when its delay elapses. *)
Theorem superseded_resize_never_fires evs1 ev evs2 t :
  t < length (Invalidate.timers (Invalidate.run evs1)) ->
  Invalidate.supersedes (Invalidate.run evs1) ev = true ->
  Invalidate.step (Invalidate.run (evs1 ++ ev :: evs2)) (Invalidate.Elapse t)
  = Invalidate.run (evs1 ++ ev :: evs2).
Proof.
  intros Ht Hs. rewrite resize_run_app. cbn [fold_left].
  destruct (resize_supersedes_clears _ ev t (resize_run_one_pending evs1)
              Hs Ht) as (x & Hx & Hnp).
  destruct (resize_settled_steps evs2 _ t x Hx Hnp) as (x' & Hx' & Hnp').
  simpl. rewrite Hx'. by destruct x'.
Qed.

Lemma superseded_resize_never_fires_witness :
  0 < length (Invalidate.timers (Invalidate.run [Invalidate.Render false]))
  /\ Invalidate.supersedes (Invalidate.run [Invalidate.Render false])
       (Invalidate.Render true) = true
  /\ Invalidate.invalidateSize_calls
       (Invalidate.step
          (Invalidate.run ([Invalidate.Render false]
                           ++ Invalidate.Render true :: []))
          (Invalidate.Elapse 0)) = 0.
Proof.
  assert (Hlen : 0 < length (Invalidate.timers
                               (Invalidate.run [Invalidate.Render false])))
    by (simpl; lia).
  split; [exact Hlen|]. split; [reflexivity|].
  exact (f_equal Invalidate.invalidateSize_calls
           (superseded_resize_never_fires [Invalidate.Render false]
              (Invalidate.Render true) [] 0 Hlen eq_refl)).
Defined.

Lemma resize_torn_down_step v ev :
  Invalidate.unmounted v = true -> Invalidate.one_pending v ->
  Invalidate.step v ev = v.
Proof.
  intros Hm Hinv. destruct ev as [o| |t0]; simpl; rewrite ?Hm; try done.
  destruct (Invalidate.timers v !! t0) as [[| |]|] eqn:H0; try done.
  destruct (Hinv t0 H0). congruence.
Qed.

Lemma resize_torn_down_steps evs : forall v,
  Invalidate.unmounted v = true -> Invalidate.one_pending v ->
  fold_left Invalidate.step evs v = v.
Proof.
  induction evs as [|ev evs IH]; intros v Hm Hinv; simpl; [done|].
  rewrite resize_torn_down_step by done. by apply IH.
Qed.

(** X18: after the teardown the map is never resized again: whatever follows
    [Unmount], timers elapsing included, the number of
    [map.invalidateSize()] calls stays what it was. *)
Theorem unmount_stops_resizes evs1 evs2 :
  Invalidate.invalidateSize_calls
    (Invalidate.run (evs1 ++ Invalidate.Unmount :: evs2))
  = Invalidate.invalidateSize_calls (Invalidate.run evs1).
Proof.
  rewrite resize_run_app. cbn [fold_left].
  pose proof (resize_run_one_pending evs1) as Hinv.
  rewrite resize_torn_down_steps.
  - simpl. by destruct (Invalidate.unmounted (Invalidate.run evs1)).
  - simpl. by destruct (Invalidate.unmounted (Invalidate.run evs1)) eqn:Hm.
  - by apply resize_step_one_pending.
Qed.

(** * The fetches the hook starts *)

Lemma deps_cleanup effs : map deps (cleanup effs) = map deps effs.
Proof.
  unfold cleanup. generalize (length effs - 1). intros n. revert n.
  induction effs as [|e effs IH]; intros [|n]; simpl; try done.
  specialize (IH n). unfold alter in IH. by rewrite IH.
Qed.

Lemma deps_settle effs i e p :
  effs !! i = Some e -> map deps (<[ i := set_phase p e ]> effs) = map deps effs.
Proof.
  revert i. induction effs as [|x effs IH]; intros [|i] H; simpl in *;
    try done.
  - by injection H as ->.
  - by rewrite IH.
Qed.

Lemma last_deps effs : last (map deps effs) = deps <$> last effs.
Proof.
  induction effs as [|e effs IH]; [done|].
  simpl map. rewrite !last_cons, IH. by destruct (last effs).
Qed.

Lemma fresh_deps_snoc (ds : list Bbox) b :
  (forall i x y, ds !! i = Some x -> ds !! S i = Some y ->
                 same_deps x y = false) ->
  (forall l, last ds = Some l -> same_deps l b = false) ->
  forall i x y, (ds ++ [b]) !! i = Some x -> (ds ++ [b]) !! S i = Some y ->
                same_deps x y = false.
Proof.
  intros Hds Hl i x y Hx Hy.
  apply lookup_app_Some in Hy as [Hy | [Hlen Hy]].
  - rewrite lookup_app_l in Hx by (apply lookup_lt_Some in Hy; lia).
    by eapply Hds.
  - assert (S i = length ds) as Hi.
    { apply lookup_lt_Some in Hy. simpl in Hy. lia. }
    rewrite Hi, Nat.sub_diag in Hy. injection Hy as <-.
    rewrite lookup_app_l in Hx by lia.
    apply Hl. rewrite last_lookup, <- Hi. exact Hx.
Qed.

Lemma step_fresh_deps w ev :
  (forall i x y, map deps (effects w) !! i = Some x ->
                 map deps (effects w) !! S i = Some y ->
                 same_deps x y = false) ->
  forall i x y, map deps (effects (step w ev)) !! i = Some x ->
                map deps (effects (step w ev)) !! S i = Some y ->
                same_deps x y = false.
Proof.
  intros Hinv.
  assert (Hrun : forall b,
    (forall l, last (effects w) = Some l -> same_deps (deps l) b = false) ->
    forall i x y, map deps (effects (run_effect b w)) !! i = Some x ->
                  map deps (effects (run_effect b w)) !! S i = Some y ->
                  same_deps x y = false).
  { intros b Hl. simpl. rewrite map_app, deps_cleanup. simpl.
    apply fresh_deps_snoc; [exact Hinv|].
    intros l. rewrite last_deps.
    destruct (last (effects w)) as [e|]; [|done].
    intros [= <-]. by apply Hl. }
  destruct ev as [b| |j r|j r]; simpl.
  - destruct (unmounted w); [exact Hinv|].
    destruct (last (effects w)) as [l|] eqn:Hl; [|by apply Hrun].
    destruct (same_deps (deps l) b) eqn:Hs; [exact Hinv|].
    apply Hrun. by intros ? [= <-].
  - destruct (unmounted w); [exact Hinv|]. simpl. by rewrite deps_cleanup.
  - destruct (effects w !! j) as [e|] eqn:Hj; [|exact Hinv].
    destruct (phase e); try exact Hinv. simpl. by rewrite deps_settle.
  - destruct (effects w !! j) as [e|] eqn:Hj; [|exact Hinv].
    destruct (phase e); try exact Hinv. simpl. by rewrite deps_settle.
Qed.

(** X19: a render with an unchanged bounding box starts no fetch: two runs
    of the effect that follow one another were always started for bounding
    boxes that differ in a dependency. *)
Theorem no_refetch_same_bbox evs i e e' :
  effects (run evs) !! i = Some e -> effects (run evs) !! S i = Some e' ->
  same_deps (deps e) (deps e') = false.
Proof.
  intros He He'.
  assert (H : forall i x y, map deps (effects (run evs)) !! i = Some x ->
                            map deps (effects (run evs)) !! S i = Some y ->
                            same_deps x y = false).
  { clear. induction evs as [|ev evs IH] using rev_ind.
    - intros i x y Hx. unfold run in Hx. simpl in Hx.
      by rewrite lookup_nil in Hx.
    - rewrite run_snoc. by apply step_fresh_deps. }
  apply (H i); rewrite list_lookup_fmap; [by rewrite He | by rewrite He'].
Qed.

Lemma no_refetch_same_bbox_witness :
  length (effects (run [Render bbox; Render bbox; Render other_bbox;
                        Render other_bbox])) = 2
  /\ same_deps bbox other_bbox = false.
Proof.
  split; [reflexivity|].
  exact (no_refetch_same_bbox
           [Render bbox; Render bbox; Render other_bbox; Render other_bbox] 0
           {| deps := bbox; cancelled := true; phase := AwaitFetch |}
           {| deps := other_bbox; cancelled := false; phase := AwaitFetch |}
           eq_refl eq_refl).
Defined.
